(** * The signaling relay of server.js: registry, router and call-state tracking

    The websocket part of [server.js] (lines 185-304) keeps one global
    [connections] map from client id to socket, and three handlers per
    socket: ['message'], ['close'] and the helper pair [sendMessage] /
    [trackCallState].  Every handler runs to completion on Node's single
    thread, so a handler is a function from the state before to the state
    after, together with the trace of what it did to the outside world. *)

From stdpp Require Import gmap strings list fin_maps pretty.
From Stdlib Require Import QArith Ascii.

Local Open Scope string_scope.
Local Open Scope Z_scope.
Local Open Scope list_scope.

(** ** JSON values, as [JSON.parse] builds them *)

Module Json.

(** A number is a finite double, hence a rational, or the [Infinity] or
    [-Infinity] that [JSON.parse] returns for a literal beyond the range of
    doubles; an object is its list of properties in enumeration order. *)
#[local] Set Warnings "-register-all".
Inductive json : Type :=
| JNull
| JBool (b : bool)
| JNum (q : Q)
| JStr (s : string)
| JArr (items : list json)
| JObj (props : list (string * json))
| JInfinity (negative : bool).

(** [o[k]] on a property list; [None] is [undefined]. *)
Fixpoint lookup_prop (k : string) (props : list (string * json)) : option json :=
  match props with
  | [] => None
  | (k', v) :: rest => if String.eqb k k' then Some v else lookup_prop k rest
  end.

(** [o[k] = v]: an existing property keeps its position, a new one is
    appended. *)
Fixpoint assign_prop (k : string) (v : json) (props : list (string * json))
  : list (string * json) :=
  match props with
  | [] => [(k, v)]
  | (k', v') :: rest =>
      if String.eqb k k' then (k', v) :: rest
      else (k', v') :: assign_prop k v rest
  end.

(** [data.k] for [k] one of ["id"], ["type"], on a value that is not
    [null]: only objects carry such a property (numbers, booleans, strings
    and arrays give [undefined]). *)
Definition prop (k : string) (data : json) : option json :=
  match data with
  | JObj props => lookup_prop k props
  | _ => None
  end.

(** [data.k = v] on an object. *)
Definition set_prop (k : string) (v : json) (data : json) : json :=
  match data with
  | JObj props => JObj (assign_prop k v props)
  | _ => data
  end.

(** JavaScript truthiness of a property read: [undefined], [null], [false],
    [0] and the empty string are falsy, everything else is truthy, the
    infinities included. *)
Definition truthy (v : option json) : bool :=
  match v with
  | None => false
  | Some JNull => false
  | Some (JBool b) => b
  | Some (JNum q) => negb (Qeq_bool q 0)
  | Some (JStr s) => negb (String.eqb s "")
  | Some (JArr _) => true
  | Some (JObj _) => true
  | Some (JInfinity _) => true
  end.

End Json.

Import Json.

(** ** The relay *)

(** What [JSON.parse(message)] did: threw a [SyntaxError], or returned a
    value. *)
Inductive parse_result : Type :=
| SyntaxError
| Parsed (data : json).

(** What a handler does to the outside world.  A socket is named by the id
    it was registered under, except for the rejected socket of a duplicate
    id, which never gets registered. *)
Inductive effect : Type :=
| Log (id : string) (line : string)       (* console.log(id, line, ...) *)
| Send (to : string) (data : json)        (* ws.send(JSON.stringify(data)) on the socket of [to];
                                             [data] is the value handed to JSON.stringify *)
| CloseCandidate (id : string)            (* ws.close() on the socket that drew the taken [id] *)
| TokensCreate (id : string)              (* twilio.tokens.create() started for [id] *)
| UnhandledRejection (id : string).       (* the promise chain of [id] rejected, no handler *)

(** What ends the process: a [TypeError] thrown out of a listener or out
    of the token callback, or the reason the token promise rejected with,
    which no handler takes. *)
Inductive exn : Type :=
| TypeError
| ProviderError.

(** The [connections] map.  The value kept for a socket is its closure
    variable [notifyOnClose], the array of clients to be notified when the
    socket closes. *)
Abbreviation connections := (gmap string (list string)).

(** A handler returns, or ends in an exception nobody catches. *)
Inductive outcome : Type :=
| Returned (st : connections) (trace : list effect)
| Threw (e : exn) (st : connections) (trace : list effect).

(** [notifyOnClose.indexOf(peerId)]: first index, [-1] when absent. *)
Fixpoint indexOf (notifyOnClose : list string) (peerId : string) : Z :=
  match notifyOnClose with
  | [] => -1
  | x :: rest =>
      if String.eqb x peerId then 0
      else let i := indexOf rest peerId in
           if i =? -1 then -1 else i + 1
  end.

(** [notifyOnClose.splice(start, 1)] for [start] in range. *)
Definition splice1 (start : Z) (notifyOnClose : list string) : list string :=
  delete (Z.to_nat start) notifyOnClose.

(** [ws.trackCallState(data, peerId)] (lines 292-303), on the array of the
    socket it belongs to. *)
Definition trackCallState (data : json) (peerId : string)
    (notifyOnClose : list string) : list string :=
  match prop "type" data with
  | Some (JStr "answer") => notifyOnClose ++ [peerId]
  | Some (JStr "bye") =>
      if negb (indexOf notifyOnClose peerId =? -1)
      then splice1 (indexOf notifyOnClose peerId) notifyOnClose
      else notifyOnClose
  | _ => notifyOnClose
  end.

(** [ws.sendMessage(data)] (lines 282-290) of the socket registered as
    [ws]: track with [data.id], then send.  The router passes [data] with
    [id] set to the sender's identity and the close handler passes its
    notice, so [data.id] is an identity string at both call sites (see
    [on_message_forward] and [notify_each_cons]); the array never holds
    anything else. *)
Definition sendMessage (ws : string) (data : json) (st : connections)
  : connections * list effect :=
  match prop "id" data with
  | Some (JStr from) => (alter (trackCallState data from) ws st, [Send ws data])
  | _ => (st, [Send ws data])
  end.

(** The notice a closing socket synthesizes (lines 245-248). *)
Definition bye (id : string) : json :=
  JObj [("type", JStr "bye"); ("id", JStr id)].

(** [notifyOnClose.forEach(...)] of the close handler (lines 240-249). *)
Fixpoint notify_each (id : string) (notifyOnClose : list string)
    (st : connections) : connections * list effect :=
  match notifyOnClose with
  | [] => (st, [])
  | remoteId :: rest =>
      match st !! remoteId with
      | None => notify_each id rest st
      | Some _ =>
          let '(st1, tr1) := sendMessage remoteId (bye id) st in
          let '(st2, tr2) := notify_each id rest st1 in
          (st2, tr1 ++ tr2)
      end
  end.

(** [ws.on('close')] (lines 237-250) of the socket registered as [id]. *)
Definition on_close (id : string) (st : connections) : outcome :=
  let notifyOnClose := default [] (st !! id) in
  let '(st', tr) := notify_each id notifyOnClose (delete id st) in
  Returned st' (Log id "Connection closed" :: tr).

(** [ws.on('message')] (lines 252-279) of the socket registered as [id]. *)
Definition on_message (id : string) (message : parse_result) (st : connections)
  : outcome :=
  match message with
  | SyntaxError => Returned st [Log id "received"; Log id "invalid json"]
  | Parsed JNull => Threw TypeError st [Log id "received"]
  | Parsed data =>
      if negb (truthy (prop "id" data))
      then Returned st [Log id "received"; Log id "missing id"]
      else
        match prop "id" data with
        | Some (JStr peerId) =>
            match st !! peerId with
            | None => Returned st [Log id "received"; Log id "peer not found"]
            | Some _ =>
                let data' := set_prop "id" (JStr id) data in
                let '(st1, tr) := sendMessage peerId data' st in
                Returned (alter (trackCallState data' peerId) id st1)
                         (Log id "received" :: tr)
            end
        | _ => Returned st [Log id "received"; Log id "peer not found"]
        end
  end.

(** The greeting and the static ICE configuration (lines 213-216, 228-231). *)
Definition hello (id : string) : json :=
  JObj [("type", JStr "hello"); ("id", JStr id)].

Definition stun_iceServers : json :=
  JObj [("type", JStr "iceServers");
        ("iceServers", JArr [JObj [("urls", JStr "stun:stun.l.google.com:19302")]])].

(** [wss.on('connection')] (lines 197-232) for a socket that drew [id] from
    [generateClientId()].  [twilio] says whether the Twilio client was
    configured at start-up (lines 13-16). *)
Definition on_connection (twilio : bool) (id : string) (st : connections)
  : outcome :=
  match st !! id with
  | Some _ =>
      Returned st [Log id "Received new connection";
                   Log id "Duplicate id detected, closing";
                   CloseCandidate id]
  | None =>
      Returned (<[id := []]> st)
               ([Log id "Received new connection"; Send id (hello id)]
                ++ (if twilio then [TokensCreate id] else [Send id stun_iceServers]))
  end.

(** How the promise of [twilio.tokens.create()] settled. *)
Inductive settled : Type :=
| Fulfilled (token : json)
| Rejected.

(** [{type: 'iceServers', iceServers: token.iceServers}] as
    [JSON.stringify] renders it: an [undefined] member is left out. *)
Definition token_iceServers (token : json) : json :=
  JObj (("type", JStr "iceServers") ::
        match prop "iceServers" token with
        | Some v => [("iceServers", v)]
        | None => []
        end).

(** The continuation [.then(token => ...)] of lines 221-226.  It is the only
    handler on the promise, and the file installs none for the process: a
    rejection, or the [TypeError] of reading [token.iceServers] on [null],
    leaves a rejected promise nobody listens to, which Node raises as an
    uncaught exception. *)
Definition on_token (id : string) (s : settled) (st : connections) : outcome :=
  match s with
  | Fulfilled JNull => Threw TypeError st [UnhandledRejection id]
  | Fulfilled token => Returned st [Send id (token_iceServers token)]
  | Rejected => Threw ProviderError st [UnhandledRejection id]
  end.

(** ** Runs of the server *)

Inductive event : Type :=
| Connection (id : string)
| Message (id : string) (message : parse_result)
| Close (id : string)
| TokenSettled (id : string) (s : settled).

Definition step (twilio : bool) (e : event) (st : connections) : outcome :=
  match e with
  | Connection id => on_connection twilio id st
  | Message id message => on_message id message st
  | Close id => on_close id st
  | TokenSettled id s => on_token id s st
  end.

(** Events are handled one after the other; an exception that leaves a
    listener, or a rejection without handler, is uncaught and ends the
    run. *)
Fixpoint run (twilio : bool) (es : list event) (st : connections) : outcome :=
  match es with
  | [] => Returned st []
  | e :: es' =>
      match step twilio e st with
      | Returned st1 tr1 =>
          match run twilio es' st1 with
          | Returned st2 tr2 => Returned st2 (tr1 ++ tr2)
          | Threw x st2 tr2 => Threw x st2 (tr1 ++ tr2)
          end
      | Threw x st1 tr1 => Threw x st1 tr1
      end
  end.

Definition trace_of (o : outcome) : list effect :=
  match o with
  | Returned _ tr => tr
  | Threw _ _ tr => tr
  end.

Definition state_of (o : outcome) : connections :=
  match o with
  | Returned st _ => st
  | Threw _ st _ => st
  end.

(** ** Observations on a trace *)

(** The envelopes written to the socket of [b], in order. *)
Fixpoint sent_to (b : string) (tr : list effect) : list json :=
  match tr with
  | [] => []
  | Send to data :: rest =>
      if String.eqb to b then data :: sent_to b rest else sent_to b rest
  | _ :: rest => sent_to b rest
  end.

(** Every envelope written to any socket. *)
Fixpoint sends (tr : list effect) : list (string * json) :=
  match tr with
  | [] => []
  | Send to data :: rest => (to, data) :: sends rest
  | _ :: rest => sends rest
  end.

(** How often [p] occurs in an array. *)
Fixpoint occurrences (p : string) (l : list string) : nat :=
  match l with
  | [] => O
  | x :: rest => if String.eqb x p then S (occurrences p rest) else occurrences p rest
  end.

(** Property names of an object, in order. *)
Definition keys (data : json) : list string :=
  match data with
  | JObj props => map fst props
  | _ => []
  end.

(** ** Sample envelopes and states *)

Definition answer_to (peer : string) : json :=
  JObj [("type", JStr "answer"); ("id", JStr peer); ("sdp", JStr "a1")].

Definition bye_to (peer : string) : json :=
  JObj [("type", JStr "bye"); ("id", JStr peer)].

Definition offer_to (peer : string) : json :=
  JObj [("type", JStr "offer"); ("id", JStr peer); ("sdp", JStr "x")].

(** Two registered sockets that have not exchanged anything yet. *)
Definition two_idle : connections := {[ "A" := []; "B" := [] ]}.

(** "A" and "B" registered, "A" has answered "B" and then itself. *)
Definition after_two_answers : connections :=
  state_of (run false
    [Connection "A"; Connection "B";
     Message "A" (Parsed (answer_to "B"));
     Message "A" (Parsed (answer_to "A"))] ∅).

(** ** Runs the server can see

    A ['message'] or ['close'] listener exists only on a socket that went
    through registration (lines 204-210 return before lines 237 and 252 for
    a duplicate) and fires no more once the socket has closed. *)
Definition has_listener (e : event) (st : connections) : bool :=
  match e with
  | Message id _ | Close id => bool_decide (is_Some (st !! id))
  | Connection _ | TokenSettled _ _ => true
  end.

Fixpoint admissible (twilio : bool) (es : list event) (st : connections) : bool :=
  match es with
  | [] => true
  | e :: es' =>
      has_listener e st &&
      match step twilio e st with
      | Returned st1 _ => admissible twilio es' st1
      | Threw _ _ _ => true
      end
  end.

(** What one pass through the tracker does to the number of occurrences of
    the peer it is called with. *)
Definition tally (data : json) (n : nat) : nat :=
  match prop "type" data with
  | Some (JStr "answer") => S n
  | Some (JStr "bye") => pred n
  | _ => n
  end.

(** The arrays name registered sockets only, and [b] is in the array of [a]
    as often as [a] is in the array of [b]. *)
Definition mutual (st : connections) : Prop :=
  (∀ a la b, st !! a = Some la → b ∈ la → is_Some (st !! b)) ∧
  (∀ a b la lb, st !! a = Some la → st !! b = Some lb →
                occurrences b la = occurrences a lb).


(** ** The static pages (server.js, lines 106-183) *)

Module Http.

(** What the request handler reads of a request; [host] is
    [request.headers.host], [None] when the header is absent. *)
Record request : Type := {
  method : string;
  url : string;
  host : option string
}.

(** What the platform hands to the handler: the [pathname] of
    [new URL(request.url, `https://${host}`)], [None] when the constructor
    throws, and the two readings of [new Date().toISOString()]. *)
Record platform : Type := {
  url_pathname : option string;
  log_time : string;
  body_time : string
}.

(** [s.split(c)[0]]: what comes before the first [c]. *)
Fixpoint before (c : Ascii.ascii) (s : string) : string :=
  match s with
  | EmptyString => EmptyString
  | String x rest =>
      if Ascii.eqb x c then EmptyString else String x (before c rest)
  end.

(** [c] occurs nowhere in [s]. *)
Definition lacks (c : Ascii.ascii) (s : string) : Prop :=
  ∀ s1 s2, s ≠ s1 +:+ String c s2.

(** [request.url.split('?')[0].split('#')[0]] (lines 114 and 122). *)
Definition simple_pathname (u : string) : string :=
  before "#"%char (before "?"%char u).

(** Lines 114-123. *)
Definition pathname_of (req : request) (pf : platform) : string :=
  match host req with
  | Some h =>
      if String.eqb h "" then simple_pathname (url req)
      else match url_pathname pf with
           | Some p => p
           | None => simple_pathname (url req)
           end
  | None => simple_pathname (url req)
  end.

(** [s.includes(needle)]. *)
Fixpoint includes (s needle : string) : bool :=
  String.prefix needle s ||
  match s with
  | EmptyString => false
  | String _ rest => includes rest needle
  end.

(** A property read on an object literal with string members gives the
    member, something inherited from [Object.prototype] (a function or an
    object, hence truthy and not a string), or [undefined]. *)
Inductive value : Type :=
| Str (s : string)
| ProtoMember
| Undefined.

Definition Object_prototype : list string :=
  ["constructor"; "__defineGetter__"; "__defineSetter__"; "hasOwnProperty";
   "__lookupGetter__"; "__lookupSetter__"; "isPrototypeOf";
   "propertyIsEnumerable"; "toString"; "valueOf"; "__proto__";
   "toLocaleString"].

Fixpoint own (table : list (string * string)) (key : string) : option string :=
  match table with
  | [] => None
  | (k, v) :: rest => if String.eqb key k then Some v else own rest key
  end.

(** [table[key]]. *)
Definition get (table : list (string * string)) (key : string) : value :=
  match own table key with
  | Some v => Str v
  | None => if bool_decide (key ∈ Object_prototype) then ProtoMember else Undefined
  end.

(** Lines 145-156. *)
Definition urlToPath : list (string * string) :=
  [("/", "static/index.html");
   ("/no-autodial", "static/no-autodial.html");
   ("/main.js", "static/main.js");
   ("/main.css", "static/main.css")].

Definition urlToContentType : list (string * string) :=
  [("/", "text/html");
   ("/no-autodial", "text/html");
   ("/main.js", "application/javascript");
   ("/main.css", "text/css")].

Inductive content : Type :=
| Json (v : json)       (* response.end(JSON.stringify(v)) *)
| Bytes (data : string). (* response.end(data) *)

(** [response.writeHead(status, headers)] followed by [response.end(body)];
    a header holds the value the handler passed. *)
Record response : Type := {
  status : Z;
  headers : list (string * value);
  body : option content
}.

(** Lines 108-110. *)
Definition security_headers : list (string * value) :=
  [("Strict-Transport-Security", Str "max-age=31536000; includeSubDomains")].

(** The synchronous part of the handler ends with an answer or with
    [fs.readFile(filename, callback)]. *)
Inductive served : Type :=
| Answered (log : list string) (r : response)
| Reading (log : list string) (filename : value).

(** [server.on('request')], lines 106-170. *)
Definition on_request (req : request) (pf : platform) : served :=
  let pathname := pathname_of req pf in
  let log :=
    if negb (includes pathname "favicon")
    then [log_time pf +:+ " - " +:+ method req +:+ " " +:+ pathname]
    else [] in
  if String.eqb pathname "/test" || String.eqb pathname "/test/" then
    Answered log
      {| status := 200;
         headers := security_headers ++ [("Content-Type", Str "application/json")];
         body := Some (Json (JObj [("status", JStr "ok");
                                   ("message", JStr "HTTPS server is reachable!");
                                   ("timestamp", JStr (body_time pf));
                                   ("protocol", JStr "https")])) |}
  else
    match get urlToPath pathname with
    | Undefined =>
        if includes pathname "favicon" then
          Answered log {| status := 204; headers := security_headers; body := None |}
        else
          Answered (log ++ ["404 - File not found: " +:+ pathname])
            {| status := 404; headers := security_headers; body := None |}
    | filename => Reading log filename
    end.

(** How [fs.readFile] called back. *)
Inductive read_result : Type :=
| ReadError (message : string)
| ReadData (data : string).

(** The callback of lines 170-182, for the [pathname] of the request and the
    [filename] that was read. *)
Definition on_read (pathname filename : string) (res : read_result)
  : list string * response :=
  match res with
  | ReadError message =>
      (["404 - Could not read file " +:+ filename +:+ ": " +:+ message],
       {| status := 404; headers := security_headers; body := None |})
  | ReadData data =>
      ([],
       {| status := 200;
          headers := security_headers
                     ++ [("Content-Type", get urlToContentType pathname)];
          body := Some (Bytes data) |})
  end.

End Http.

(** ** Network addresses (server.js, lines 83-90 and 97-99;
       generate-cert.js, lines 35-45, 72-73 and 105-107) *)

Module Net.

(** An entry of [os.networkInterfaces()][name]. *)
Record iface : Type := {
  family : json;
  internal : bool;
  address : string
}.

(** [iface.family === 'IPv4' && !iface.internal]. *)
Definition external_ipv4 (i : iface) : bool :=
  match family i with
  | JStr "IPv4" => negb (internal i)
  | _ => false
  end.

(** [allIPs] of server.js (lines 83-90): name and address of every match,
    interfaces in the order of [Object.keys]. *)
Fixpoint allIPs (networkInterfaces : list (string * list iface))
  : list (string * string) :=
  match networkInterfaces with
  | [] => []
  | (name, ifaces) :: rest =>
      map (λ i, (name, address i)) (filter (λ i, external_ipv4 i = true) ifaces)
      ++ allIPs rest
  end.

(** The lines printed under "Network access" (lines 97-99), port 8443. *)
Definition network_access (networkInterfaces : list (string * list iface))
  : list string :=
  map (λ '(name, addr), "  - https://" +:+ addr +:+ ":8443 (" +:+ name +:+ ")")
      (allIPs networkInterfaces).

(** [ips] of generate-cert.js (lines 36-45). *)
Fixpoint pushed (networkInterfaces : list (string * list iface)) : list string :=
  match networkInterfaces with
  | [] => []
  | (_, ifaces) :: rest =>
      map address (filter (λ i, external_ipv4 i = true) ifaces) ++ pushed rest
  end.

Definition ips (networkInterfaces : list (string * list iface)) : list string :=
  ["127.0.0.1"; "::1"] ++ pushed networkInterfaces.

Definition dnsNames : list string := ["localhost"].

(** The [[alt_names]] lines of the OpenSSL configuration (lines 72-73),
    before they are joined with newlines. *)
Definition alt_names (networkInterfaces : list (string * list iface))
  : list string :=
  imap (λ i dns, "DNS." +:+ pretty (i + 1)%nat +:+ " = " +:+ dns) dnsNames
  ++ imap (λ i ip, "IP." +:+ pretty (i + 1)%nat +:+ " = " +:+ ip)
       (ips networkInterfaces).

(** The addresses announced at the end (lines 105-107). *)
Definition announced (networkInterfaces : list (string * list iface))
  : list string :=
  map (λ ip, "     - https://" +:+ ip +:+ ":8443")
      (filter (λ ip, ip ≠ "127.0.0.1" ∧ ip ≠ "::1") (ips networkInterfaces)).

End Net.

(** ** A first run

    Two clients connect, "A" offers, "B" answers, "B" goes away: "A" is told
    so and the registry no longer holds "B". *)
Example round_trip_offer_answer_close :
  run false
      [Connection "A"; Connection "B";
       Message "A" (Parsed (JObj [("id", JStr "B"); ("type", JStr "offer"); ("sdp", JStr "o1")]));
       Message "B" (Parsed (JObj [("id", JStr "A"); ("type", JStr "answer"); ("sdp", JStr "a1")]));
       Close "B"] ∅
  = Returned {["A" := []]}
      [Log "A" "Received new connection"; Send "A" (hello "A"); Send "A" stun_iceServers;
       Log "B" "Received new connection"; Send "B" (hello "B"); Send "B" stun_iceServers;
       Log "A" "received";
       Send "B" (JObj [("id", JStr "A"); ("type", JStr "offer"); ("sdp", JStr "o1")]);
       Log "B" "received";
       Send "A" (JObj [("id", JStr "B"); ("type", JStr "answer"); ("sdp", JStr "a1")]);
       Log "B" "Connection closed";
       Send "A" (bye "B")].
Proof. vm_compute. reflexivity. Qed.

(** ** Properties of objects *)

Section Objects.

Implicit Types (k : string) (v : json) (props : list (string * json)).

Lemma lookup_assign_eq k v props :
  lookup_prop k (assign_prop k v props) = Some v.
Proof.
  induction props as [|[k' v'] rest IH]; simpl.
  - by rewrite String.eqb_refl.
  - destruct (String.eqb_spec k k') as [->|Hne]; simpl.
    + by rewrite String.eqb_refl.
    + destruct (String.eqb_spec k k'); [done | exact IH].
Qed.

Lemma lookup_assign_ne k k' v props :
  k ≠ k' → lookup_prop k (assign_prop k' v props) = lookup_prop k props.
Proof.
  intros Hne. induction props as [|[k0 v0] rest IH]; simpl.
  - destruct (String.eqb_spec k k'); [done | reflexivity].
  - destruct (String.eqb_spec k' k0) as [->|Hne0]; simpl.
    + destruct (String.eqb_spec k k0); [done | reflexivity].
    + destruct (String.eqb_spec k k0); [reflexivity | exact IH].
Qed.

Lemma keys_assign k v props :
  is_Some (lookup_prop k props) →
  map fst (assign_prop k v props) = map fst props.
Proof.
  induction props as [|[k' v'] rest IH]; simpl.
  - intros [? [=]].
  - destruct (String.eqb_spec k k'); simpl; [done|].
    intros H. by rewrite IH.
Qed.

Lemma prop_set_prop_ne k k' v data :
  k ≠ k' → prop k (set_prop k' v data) = prop k data.
Proof. destruct data; simpl; try done. apply lookup_assign_ne. Qed.

Lemma prop_set_prop_eq k v v0 data :
  prop k data = Some v0 → prop k (set_prop k v data) = Some v.
Proof. destruct data; simpl; try done. intros _. apply lookup_assign_eq. Qed.

Lemma keys_set_prop k v data :
  is_Some (prop k data) → keys (set_prop k v data) = keys data.
Proof. destruct data; simpl; try done. apply keys_assign. Qed.

End Objects.

(** ** Properties of the call-state array *)

Section CallState.

Implicit Types (p q : string) (l : list string) (data : json).

Lemma occurrences_app p l1 l2 :
  occurrences p (l1 ++ l2) = (occurrences p l1 + occurrences p l2)%nat.
Proof.
  induction l1 as [|x l1 IH]; simpl; [done|].
  destruct (String.eqb x p); simpl; by rewrite IH.
Qed.

Lemma occurrences_absent p l : occurrences p l = O ↔ p ∉ l.
Proof.
  induction l as [|x l IH]; simpl.
  - split; [intros _; apply not_elem_of_nil | done].
  - rewrite not_elem_of_cons.
    destruct (String.eqb_spec x p) as [->|Hne].
    + split; [done | intros [? _]; done].
    + rewrite IH. split; [intros ?; split; congruence | tauto].
Qed.

Lemma indexOf_lower p l : -1 ≤ indexOf l p.
Proof.
  induction l as [|x l IH]; simpl; [lia|].
  destruct (String.eqb x p); [lia|].
  destruct (Z.eqb_spec (indexOf l p) (-1)); lia.
Qed.

Lemma indexOf_absent p l : indexOf l p = -1 ↔ occurrences p l = O.
Proof.
  induction l as [|x l IH]; simpl; [done|].
  destruct (String.eqb x p); [split; [lia | done]|].
  pose proof (indexOf_lower p l).
  destruct (Z.eqb_spec (indexOf l p) (-1)) as [E|E].
  - rewrite <- IH. done.
  - rewrite <- IH. split; [lia | done].
Qed.

(** [splice] at [indexOf] takes out the first occurrence and nothing
    else. *)
Lemma splice1_indexOf p l :
  indexOf l p ≠ -1 →
  ∃ l1 l2, l = l1 ++ p :: l2 ∧ occurrences p l1 = O ∧
           splice1 (indexOf l p) l = l1 ++ l2.
Proof.
  unfold splice1. induction l as [|x l IH]; simpl; [done|].
  destruct (String.eqb_spec x p) as [->|Hne].
  - intros _. by exists [], l.
  - pose proof (indexOf_lower p l).
    destruct (Z.eqb_spec (indexOf l p) (-1)) as [E|E]; [done|].
    intros _. destruct (IH E) as (l1 & l2 & -> & Hl1 & Hdel).
    exists (x :: l1), l2. simpl.
    destruct (String.eqb_spec x p); [done|].
    repeat split; [done|].
    replace (Z.to_nat (indexOf (l1 ++ p :: l2) p + 1))
      with (S (Z.to_nat (indexOf (l1 ++ p :: l2) p))) by lia.
    simpl. by rewrite Hdel.
Qed.

Lemma track_answer data p l :
  prop "type" data = Some (JStr "answer") →
  trackCallState data p l = l ++ [p].
Proof. unfold trackCallState. by intros ->. Qed.

Lemma track_bye_absent data p l :
  prop "type" data = Some (JStr "bye") →
  p ∉ l → trackCallState data p l = l.
Proof.
  unfold trackCallState. intros -> Hp.
  apply occurrences_absent, indexOf_absent in Hp. by rewrite Hp.
Qed.

Lemma track_bye_present data p l :
  prop "type" data = Some (JStr "bye") →
  p ∈ l →
  ∃ l1 l2, l = l1 ++ p :: l2 ∧ (p ∉ l1) ∧ trackCallState data p l = l1 ++ l2.
Proof.
  unfold trackCallState. intros -> Hp.
  assert (indexOf l p ≠ -1) as Hi.
  { rewrite indexOf_absent, occurrences_absent. tauto. }
  destruct (Z.eqb_spec (indexOf l p) (-1)); [done|]. simpl.
  destruct (splice1_indexOf p l Hi) as (l1 & l2 & ? & ? & ?).
  exists l1, l2. by rewrite <- occurrences_absent.
Qed.

Lemma track_bye_occurrences data p l :
  prop "type" data = Some (JStr "bye") →
  occurrences p (trackCallState data p l) = pred (occurrences p l).
Proof.
  intros Hd. destruct (decide (p ∈ l)) as [Hin|Hout].
  - destruct (track_bye_present data p l Hd Hin) as (l1 & l2 & -> & H1 & ->).
    rewrite !occurrences_app. simpl. rewrite String.eqb_refl.
    apply occurrences_absent in H1. lia.
  - rewrite track_bye_absent by done.
    apply occurrences_absent in Hout. by rewrite Hout.
Qed.

Lemma track_other_type data p l :
  prop "type" data ≠ Some (JStr "answer") →
  prop "type" data ≠ Some (JStr "bye") →
  trackCallState data p l = l.
Proof.
  unfold trackCallState. intros Ha Hb.
  destruct (prop "type" data) as [v|] eqn:E; [|done].
  destruct v as [| | |s| | |]; try done.
  destruct (decide (s = "answer")) as [->|]; [done|].
  destruct (decide (s = "bye")) as [->|]; [done|].
  repeat (match goal with
          | |- context [match ?s with EmptyString => _ | String _ _ => _ end] =>
              destruct s as [|[[] [] [] [] [] [] [] []] ?]
          end; try done).
Qed.

End CallState.

(** ** Properties of the handlers *)

Section Handlers.

Implicit Types (id p a b : string) (l : list string) (data : json)
  (st : connections) (tr : list effect).

Lemma sent_to_app p tr1 tr2 :
  sent_to p (tr1 ++ tr2) = sent_to p tr1 ++ sent_to p tr2.
Proof.
  induction tr1 as [|e tr1 IH]; simpl; [done|].
  destruct e; try done. destruct (String.eqb to p); simpl; by rewrite IH.
Qed.

(** The tracker looks at [data.type] and at nothing else of [data]. *)
Lemma track_type_only data1 data2 p l :
  prop "type" data1 = prop "type" data2 →
  trackCallState data1 p l = trackCallState data2 p l.
Proof. unfold trackCallState. by intros ->. Qed.

Lemma sendMessage_from ws from data st :
  prop "id" data = Some (JStr from) →
  sendMessage ws data st
  = (alter (trackCallState data from) ws st, [Send ws data]).
Proof. unfold sendMessage. by intros ->. Qed.

Lemma sendMessage_registered ws data st p :
  is_Some ((sendMessage ws data st).1 !! p) ↔ is_Some (st !! p).
Proof.
  unfold sendMessage.
  destruct (prop "id" data) as [[| | |from| | |]|]; simpl; try done.
  rewrite lookup_alter. case_decide; [subst|done].
  by rewrite fmap_is_Some.
Qed.

Lemma notify_each_cons id x l st :
  notify_each id (x :: l) st
  = match st !! x with
    | None => notify_each id l st
    | Some _ =>
        let r := notify_each id l (alter (trackCallState (bye id) id) x st) in
        (r.1, Send x (bye id) :: r.2)
    end.
Proof.
  simpl. destruct (st !! x); [|done].
  by destruct (notify_each id l _).
Qed.

(** The loop of the close handler writes to registered sockets only, one
    notice per occurrence in the array, and registers or drops nobody. *)
Lemma notify_each_spec id l : ∀ st p,
  (is_Some ((notify_each id l st).1 !! p) ↔ is_Some (st !! p)) ∧
  sent_to p (notify_each id l st).2
  = match st !! p with
    | Some _ => repeat (bye id) (occurrences p l)
    | None => []
    end.
Proof.
  induction l as [|x l IH]; intros st p.
  - simpl. split; [done | by destruct (st !! p)].
  - rewrite notify_each_cons. destruct (st !! x) as [lx|] eqn:Hx.
    + destruct (IH (alter (trackCallState (bye id) id) x st) p) as [IH1 IH2].
      cbn [fst snd sent_to occurrences]. rewrite IH1, IH2. split.
      * rewrite lookup_alter. case_decide; [subst|done].
        by rewrite fmap_is_Some.
      * destruct (String.eqb_spec x p) as [->|Hne].
        -- rewrite lookup_alter_eq, Hx. simpl. done.
        -- rewrite lookup_alter_ne by done. by destruct (st !! p).
    + destruct (IH st p) as [IH1 IH2]. split; [done|].
      rewrite IH2. cbn [occurrences].
      destruct (String.eqb_spec x p) as [->|Hne]; [|done].
      by rewrite Hx.
Qed.

Lemma on_close_returns id st :
  on_close id st
  = Returned (notify_each id (default [] (st !! id)) (delete id st)).1
      (Log id "Connection closed"
         :: (notify_each id (default [] (st !! id)) (delete id st)).2).
Proof. unfold on_close. by destruct (notify_each _ _ _). Qed.

Lemma on_close_sent id st l p :
  st !! id = Some l →
  sent_to p (trace_of (on_close id st))
  = match delete id st !! p with
    | Some _ => repeat (bye id) (occurrences p l)
    | None => []
    end.
Proof.
  intros Hl. rewrite on_close_returns, Hl. simpl.
  apply (notify_each_spec id l (delete id st) p).
Qed.

Lemma on_close_deregisters id st p :
  is_Some (state_of (on_close id st) !! p) ↔ p ≠ id ∧ is_Some (st !! p).
Proof.
  rewrite on_close_returns. simpl.
  destruct (notify_each_spec id (default [] (st !! id)) (delete id st) p)
    as [-> _].
  rewrite lookup_delete_is_Some.
  split; intros [? ?]; (split; [congruence | done]).
Qed.

(** A message with a registered, non-empty target is forwarded and both
    ends track it. *)
Lemma on_message_forward id peerId lp data st :
  prop "id" data = Some (JStr peerId) →
  peerId ≠ "" →
  st !! peerId = Some lp →
  let data' := set_prop "id" (JStr id) data in
  on_message id (Parsed data) st
  = Returned (alter (trackCallState data' peerId) id
                (alter (trackCallState data' id) peerId st))
      [Log id "received"; Send peerId data'].
Proof.
  intros Hid Hne Hp data'.
  assert (prop "id" data' = Some (JStr id)) as Hid'
    by (eapply prop_set_prop_eq; exact Hid).
  destruct data as [| | | | |props|]; try done.
  unfold on_message. rewrite Hid. simpl truthy.
  destruct (String.eqb_spec peerId ""); [done|]. simpl negb. cbv iota.
  rewrite Hp. fold data'.
  by rewrite (sendMessage_from peerId id data' st Hid').
Qed.

(** One envelope between two distinct registered sockets, in either
    direction: each end applies the transition of [data.type] with the
    other end's identity. *)
Lemma exchange a b la lb from to data st :
  st !! a = Some la → st !! b = Some lb →
  a ≠ b → a ≠ "" → b ≠ "" →
  (from = a ∧ to = b) ∨ (from = b ∧ to = a) →
  prop "id" data = Some (JStr to) →
  ∃ st1 tr1,
    on_message from (Parsed data) st = Returned st1 tr1 ∧
    st1 !! a = Some (trackCallState data b la) ∧
    st1 !! b = Some (trackCallState data a lb) ∧
    sends tr1 = [(to, set_prop "id" (JStr from) data)].
Proof.
  intros Ha Hb Hab Hae Hbe Hdir Hid.
  assert (∀ p l, trackCallState (set_prop "id" (JStr from) data) p l
                 = trackCallState data p l) as Htrack.
  { intros p l. apply track_type_only. by apply prop_set_prop_ne. }
  destruct Hdir as [[-> ->]|[-> ->]].
  - rewrite (on_message_forward a b lb data st Hid Hbe Hb).
    eexists _, _. split; [reflexivity|]. repeat split.
    + rewrite lookup_alter_eq, lookup_alter_ne, Ha by done.
      simpl. by rewrite Htrack.
    + rewrite lookup_alter_ne, lookup_alter_eq, Hb by done.
      simpl. by rewrite Htrack.
  - rewrite (on_message_forward b a la data st Hid Hae Ha).
    eexists _, _. split; [reflexivity|]. repeat split.
    + rewrite lookup_alter_ne, lookup_alter_eq, Ha by done.
      simpl. by rewrite Htrack.
    + rewrite lookup_alter_eq, lookup_alter_ne, Hb by done.
      simpl. by rewrite Htrack.
Qed.

End Handlers.

(** ** The call-state array keeps duplicates (C1) *)

(** C1, as the spec states it, fails: after two [answer] transitions for
    "B" the array of "A" differs from the array after one, and when "A"
    closes "B" is sent two [bye] notices. *)
Lemma answer_twice_counterexample :
  trackCallState (answer_to "B") "B" (trackCallState (answer_to "B") "B" [])
    ≠ trackCallState (answer_to "B") "B" [] ∧
  sent_to "B"
    (trace_of (on_close "A"
       (state_of (run false
          [Connection "A"; Connection "B";
           Message "A" (Parsed (answer_to "B"));
           Message "A" (Parsed (answer_to "B"))] ∅))))
  = [bye "A"; bye "A"].
Proof. split; [discriminate | vm_compute; reflexivity]. Qed.

(** C1 (amended): each [answer] transition appends the peer to the array,
    so two of them for the same peer leave two more occurrences; when the
    socket closes, a peer that is still registered is sent one [bye] per
    occurrence; and the [bye] transition for a peer that is not in the
    array leaves the array as it is. *)
Theorem answer_twice_listed_twice
    (st : connections) (id peer : string) (l lp l' : list string)
    (answer goodbye : json) :
  prop "type" answer = Some (JStr "answer") →
  prop "type" goodbye = Some (JStr "bye") →
  st !! id = Some (trackCallState answer peer (trackCallState answer peer l)) →
  st !! peer = Some lp →
  peer ≠ id →
  peer ∉ l' →
  trackCallState answer peer (trackCallState answer peer l) = l ++ [peer; peer] ∧
  sent_to peer (trace_of (on_close id st))
    = repeat (bye id) (occurrences peer l + 2) ∧
  trackCallState goodbye peer l' = l'.
Proof.
  intros Ha Hg Hid Hpeer Hne Hout.
  assert (trackCallState answer peer (trackCallState answer peer l)
          = l ++ [peer; peer]) as Htwice.
  { rewrite !(track_answer _ _ _ Ha). by rewrite <- app_assoc. }
  split; [exact Htwice|]. split; [|by apply track_bye_absent].
  rewrite (on_close_sent id st _ peer Hid).
  rewrite lookup_delete_ne, Hpeer by done.
  rewrite Htwice, occurrences_app. simpl. by rewrite String.eqb_refl.
Qed.

Lemma answer_twice_listed_twice_witness :
  trackCallState (answer_to "B") "B" (trackCallState (answer_to "B") "B" [])
    = [] ++ ["B"; "B"] ∧
  sent_to "B" (trace_of (on_close "A" {[ "A" := ["B"; "B"]; "B" := ["A"; "A"] ]}))
    = repeat (bye "A") (occurrences "B" [] + 2) ∧
  trackCallState (bye_to "B") "B" [] = [].
Proof.
  apply (answer_twice_listed_twice
           {[ "A" := ["B"; "B"]; "B" := ["A"; "A"] ]} "A" "B" [] ["A"; "A"] []
           (answer_to "B") (bye_to "B")).
  - reflexivity.
  - reflexivity.
  - vm_compute; reflexivity.
  - vm_compute; reflexivity.
  - discriminate.
  - apply not_elem_of_nil.
Defined.

(** ** Subscribe and notify (C3) *)

(** C3: two distinct registered sockets [a] and [b] (identities are not
    empty), [b] not yet in the array of [a], exchange one [answer] in
    either direction and then [a] closes: the close handler returns, writes exactly one envelope to [b],
    the notice [{type: "bye", id: a}], and writes nothing to an identity
    that is not registered. *)
Theorem close_after_answer_notifies_once
    (st : connections) (a b from to : string) (la lb : list string)
    (answer : json) :
  st !! a = Some la → st !! b = Some lb →
  a ≠ b → a ≠ "" → b ≠ "" →
  b ∉ la →
  (from = a ∧ to = b) ∨ (from = b ∧ to = a) →
  prop "type" answer = Some (JStr "answer") →
  prop "id" answer = Some (JStr to) →
  ∃ st1 tr1 st2 tr2,
    on_message from (Parsed answer) st = Returned st1 tr1 ∧
    on_close a st1 = Returned st2 tr2 ∧
    sent_to b tr2 = [bye a] ∧
    (∀ p, st1 !! p = None → sent_to p tr2 = []).
Proof.
  intros Ha Hb Hab Hae Hbe Hout Hdir Hty Hid.
  destruct (exchange a b la lb from to answer st Ha Hb Hab Hae Hbe Hdir Hid)
    as (st1 & tr1 & Hmsg & Ha1 & Hb1 & _).
  rewrite (track_answer _ _ _ Hty) in Ha1.
  exists st1, tr1. eexists _, _.
  split; [exact Hmsg|]. split; [apply on_close_returns|].
  change (Log a "Connection closed" :: ?t) with
    (trace_of (Returned (notify_each a (default [] (st1 !! a)) (delete a st1)).1
                 (Log a "Connection closed" :: t))).
  rewrite <- on_close_returns. split.
  - rewrite (on_close_sent a st1 _ b Ha1).
    rewrite lookup_delete_ne, Hb1 by done.
    rewrite occurrences_app. apply occurrences_absent in Hout.
    rewrite Hout. simpl. by rewrite String.eqb_refl.
  - intros p Hp. rewrite (on_close_sent a st1 _ p Ha1).
    destruct (delete a st1 !! p) eqn:E; [|done].
    apply lookup_delete_Some in E as [_ E]. congruence.
Qed.

Lemma close_after_answer_notifies_once_witness :
  ∃ st1 tr1 st2 tr2,
    on_message "B" (Parsed (answer_to "A")) two_idle = Returned st1 tr1 ∧
    on_close "A" st1 = Returned st2 tr2 ∧
    sent_to "B" tr2 = [bye "A"] ∧
    (∀ p, st1 !! p = None → sent_to p tr2 = []).
Proof.
  apply (close_after_answer_notifies_once two_idle "A" "B" "B" "A" [] []
           (answer_to "A")).
  - vm_compute; reflexivity.
  - vm_compute; reflexivity.
  - discriminate.
  - discriminate.
  - discriminate.
  - apply not_elem_of_nil.
  - right. split; reflexivity.
  - reflexivity.
  - reflexivity.
Defined.

(** ** Routing (C4) *)

(** C4: an envelope from [a] addressed to the registered [b] (a non-empty
    identity) is written to [b], once and to nobody else, with [id] holding [a]; the property
    names keep their order and every property other than [id] keeps its
    value.  For an [offer] the registry and the arrays stay as they were,
    and [{type: "offer", id: b, sdp: "x"}] arrives as
    [{type: "offer", id: a, sdp: "x"}]. *)
Theorem offer_forwarded_with_sender_id
    (st : connections) (a b : string) (la lb : list string) (data : json) :
  st !! a = Some la → st !! b = Some lb →
  b ≠ "" →
  prop "id" data = Some (JStr b) →
  ∃ st',
    on_message a (Parsed data) st
    = Returned st' [Log a "received"; Send b (set_prop "id" (JStr a) data)] ∧
    prop "id" (set_prop "id" (JStr a) data) = Some (JStr a) ∧
    keys (set_prop "id" (JStr a) data) = keys data ∧
    (∀ k, k ≠ "id" → prop k (set_prop "id" (JStr a) data) = prop k data) ∧
    (prop "type" data = Some (JStr "offer") → st' = st) ∧
    (data = offer_to b → set_prop "id" (JStr a) data = offer_to a).
Proof.
  intros Ha Hb Hbe Hid.
  rewrite (on_message_forward a b lb data st Hid Hbe Hb).
  eexists. split; [reflexivity|].
  split; [by eapply prop_set_prop_eq|].
  split; [by apply keys_set_prop; rewrite Hid|].
  split; [by intros k Hk; apply prop_set_prop_ne|].
  split; [|by intros ->].
  intros Hty.
  assert (∀ p l, trackCallState (set_prop "id" (JStr a) data) p l = l) as Hno.
  { intros p l. apply track_other_type;
      rewrite prop_set_prop_ne by done; rewrite Hty; discriminate. }
  rewrite !alter_id; [done | by intros; apply Hno..].
Qed.

Lemma offer_forwarded_with_sender_id_witness :
  ∃ st',
    on_message "A" (Parsed (offer_to "B")) two_idle
    = Returned st' [Log "A" "received";
                    Send "B" (set_prop "id" (JStr "A") (offer_to "B"))] ∧
    prop "id" (set_prop "id" (JStr "A") (offer_to "B")) = Some (JStr "A") ∧
    keys (set_prop "id" (JStr "A") (offer_to "B")) = keys (offer_to "B") ∧
    (∀ k, k ≠ "id" →
          prop k (set_prop "id" (JStr "A") (offer_to "B")) = prop k (offer_to "B")) ∧
    (prop "type" (offer_to "B") = Some (JStr "offer") → st' = two_idle) ∧
    (offer_to "B" = offer_to "B" →
     set_prop "id" (JStr "A") (offer_to "B") = offer_to "A").
Proof.
  apply (offer_forwarded_with_sender_id two_idle "A" "B" [] [] (offer_to "B")).
  - vm_compute; reflexivity.
  - vm_compute; reflexivity.
  - discriminate.
  - reflexivity.
Defined.

(** ** Unsubscribe (C5) *)

(** C5: two distinct registered sockets [a] and [b] (identities are not
    empty), [b] not yet in the array of [a], exchange one [answer] and
    then one [bye], each in either
    direction; when [a] closes afterwards, nothing is written to [b]. *)
Theorem close_after_bye_is_silent
    (st : connections) (a b from1 to1 from2 to2 : string)
    (la lb : list string) (answer goodbye : json) :
  st !! a = Some la → st !! b = Some lb →
  a ≠ b → a ≠ "" → b ≠ "" →
  b ∉ la →
  (from1 = a ∧ to1 = b) ∨ (from1 = b ∧ to1 = a) →
  (from2 = a ∧ to2 = b) ∨ (from2 = b ∧ to2 = a) →
  prop "type" answer = Some (JStr "answer") →
  prop "id" answer = Some (JStr to1) →
  prop "type" goodbye = Some (JStr "bye") →
  prop "id" goodbye = Some (JStr to2) →
  ∃ st1 tr1 st2 tr2 st3 tr3,
    on_message from1 (Parsed answer) st = Returned st1 tr1 ∧
    on_message from2 (Parsed goodbye) st1 = Returned st2 tr2 ∧
    on_close a st2 = Returned st3 tr3 ∧
    sent_to b tr3 = [].
Proof.
  intros Ha Hb Hab Hae Hbe Hout Hd1 Hd2 Hty1 Hid1 Hty2 Hid2.
  destruct (exchange a b la lb from1 to1 answer st Ha Hb Hab Hae Hbe Hd1 Hid1)
    as (st1 & tr1 & Hm1 & Ha1 & Hb1 & _).
  destruct (exchange a b _ _ from2 to2 goodbye st1 Ha1 Hb1 Hab Hae Hbe Hd2 Hid2)
    as (st2 & tr2 & Hm2 & Ha2 & Hb2 & _).
  exists st1, tr1, st2, tr2. eexists _, _.
  split; [exact Hm1|]. split; [exact Hm2|]. split; [apply on_close_returns|].
  change (Log a "Connection closed" :: ?t) with
    (trace_of (Returned (notify_each a (default [] (st2 !! a)) (delete a st2)).1
                 (Log a "Connection closed" :: t))).
  rewrite <- on_close_returns.
  rewrite (on_close_sent a st2 _ b Ha2).
  rewrite lookup_delete_ne, Hb2 by done.
  rewrite (track_bye_occurrences _ _ _ Hty2), (track_answer _ _ _ Hty1).
  rewrite occurrences_app. apply occurrences_absent in Hout.
  rewrite Hout. simpl. by rewrite String.eqb_refl.
Qed.

Lemma close_after_bye_is_silent_witness :
  ∃ st1 tr1 st2 tr2 st3 tr3,
    on_message "B" (Parsed (answer_to "A")) two_idle = Returned st1 tr1 ∧
    on_message "A" (Parsed (bye_to "B")) st1 = Returned st2 tr2 ∧
    on_close "A" st2 = Returned st3 tr3 ∧
    sent_to "B" tr3 = [].
Proof.
  apply (close_after_bye_is_silent two_idle "A" "B" "B" "A" "A" "B" [] []
           (answer_to "A") (bye_to "B")).
  - vm_compute; reflexivity.
  - vm_compute; reflexivity.
  - discriminate.
  - discriminate.
  - discriminate.
  - apply not_elem_of_nil.
  - right. split; reflexivity.
  - left. split; reflexivity.
  - reflexivity.
  - reflexivity.
  - reflexivity.
  - reflexivity.
Defined.

(** ** ICE provider failure (C2) *)

(** C2 fails when the token promise rejects: no [iceServers] envelope is
    written, with a fallback list or without, and the rejection, which no
    handler takes, ends the process with the registry as it was. *)
Theorem provider_failure_is_unhandled (st : connections) (id : string) :
  on_token id Rejected st = Threw ProviderError st [UnhandledRejection id].
Proof. reflexivity. Qed.

(** With Twilio configured, "A" connects and is greeted, "B" connects and
    is greeted, the token fetch of "A" fails: the run ends there, "A" has
    been sent its greeting and nothing else, and the offer of "B" is not
    handled any more. *)
Example provider_failure_ends_the_run :
  run true
      [Connection "A"; Connection "B";
       TokenSettled "A" Rejected;
       Message "B" (Parsed (offer_to "A"))] ∅
  = Threw ProviderError two_idle
      [Log "A" "Received new connection"; Send "A" (hello "A"); TokensCreate "A";
       Log "B" "Received new connection"; Send "B" (hello "B"); TokensCreate "B";
       UnhandledRejection "A"].
Proof. vm_compute. reflexivity. Qed.

(** Without Twilio the same client is sent the static list right after its
    greeting. *)
Example static_list_is_sent :
  sent_to "A" (trace_of (run false [Connection "A"] ∅))
  = [hello "A"; stun_iceServers].
Proof. vm_compute. reflexivity. Qed.

(** ** Duplicate identity (C6) *)

(** C6: a connection that draws an id already in the registry is closed;
    the handler returns the registry it was given, writes to no socket and
    starts no token fetch. *)
Theorem duplicate_id_rejected
    (twilio : bool) (st : connections) (id : string) (l : list string) :
  st !! id = Some l →
  on_connection twilio id st
  = Returned st [Log id "Received new connection";
                 Log id "Duplicate id detected, closing";
                 CloseCandidate id].
Proof. intros Hid. unfold on_connection. by rewrite Hid. Qed.

Lemma duplicate_id_rejected_witness :
  on_connection true "A" {[ "A" := ["B"]; "B" := ["A"] ]}
  = Returned {[ "A" := ["B"]; "B" := ["A"] ]}
      [Log "A" "Received new connection";
       Log "A" "Duplicate id detected, closing";
       CloseCandidate "A"].
Proof.
  apply (duplicate_id_rejected true {[ "A" := ["B"]; "B" := ["A"] ]} "A" ["B"]).
  vm_compute; reflexivity.
Defined.

(** ** Unknown target (C7) *)

(** C7: an envelope whose [id] is not the identity of a registered socket
    is dropped: the handler returns the state it was given and its trace
    holds two log lines and no write to any socket. *)
Theorem unknown_target_dropped
    (st : connections) (id : string) (data v : json) :
  prop "id" data = Some v →
  (∀ t, v = JStr t → st !! t = None) →
  on_message id (Parsed data) st
  = Returned st [Log id "received";
                 Log id (if truthy (Some v) then "peer not found" else "missing id")].
Proof.
  intros Hid Hunk.
  destruct data as [| | | | |props|]; try done.
  unfold on_message. rewrite Hid.
  destruct (truthy (Some v)) eqn:Htr; simpl; [|done].
  destruct v as [| | |t| | |]; try done.
  by rewrite (Hunk t eq_refl).
Qed.

Lemma unknown_target_dropped_witness :
  on_message "A" (Parsed (offer_to "C")) two_idle
  = Returned two_idle
      [Log "A" "received";
       Log "A" (if truthy (Some (JStr "C")) then "peer not found" else "missing id")].
Proof.
  apply (unknown_target_dropped two_idle "A" (offer_to "C") (JStr "C")).
  - reflexivity.
  - intros t [= <-]. vm_compute; reflexivity.
Defined.

(** ** Malformed messages (C8) *)

Lemma invalid_json_dropped (st : connections) (id : string) :
  on_message id SyntaxError st
  = Returned st [Log id "received"; Log id "invalid json"].
Proof. reflexivity. Qed.

Lemma missing_id_dropped (st : connections) (id : string) (data : json) :
  data ≠ JNull →
  prop "id" data = None →
  on_message id (Parsed data) st
  = Returned st [Log id "received"; Log id "missing id"].
Proof.
  intros Hnull Hid. destruct data; try done.
  unfold on_message. by rewrite Hid.
Qed.

(** C8 fails on the message [null]: it parses, it has no [id], and reading
    [data.id] throws out of the listener instead of dropping the message. *)
Theorem null_message_throws (st : connections) (id : string) :
  on_message id (Parsed JNull) st = Threw TypeError st [Log id "received"].
Proof. reflexivity. Qed.

(** The exception is uncaught: the run ends there, and the events behind
    it are not handled. *)
Example null_message_ends_the_run :
  run false
      [Connection "A"; Connection "B";
       Message "A" (Parsed JNull);
       Message "B" (Parsed (offer_to "A"))] ∅
  = Threw TypeError two_idle
      [Log "A" "Received new connection"; Send "A" (hello "A"); Send "A" stun_iceServers;
       Log "B" "Received new connection"; Send "B" (hello "B"); Send "B" stun_iceServers;
       Log "A" "received"].
Proof. vm_compute. reflexivity. Qed.

(** ** Falsy id (C9) *)

(** C9: an object whose [id] is the empty string, [0], [false] or [null]
    gets what an object without [id] gets: the "missing id" log line, no
    write to any socket, the state as it was; this does not depend on what
    is registered. *)
Theorem falsy_id_treated_as_missing
    (st : connections) (id : string) (props props' : list (string * json))
    (v : json) :
  lookup_prop "id" props = Some v →
  v = JStr "" ∨ v = JNum 0 ∨ v = JBool false ∨ v = JNull →
  lookup_prop "id" props' = None →
  on_message id (Parsed (JObj props)) st
    = Returned st [Log id "received"; Log id "missing id"] ∧
  on_message id (Parsed (JObj props)) st
    = on_message id (Parsed (JObj props')) st.
Proof.
  intros Hid Hv Hnone.
  assert (on_message id (Parsed (JObj props)) st
          = Returned st [Log id "received"; Log id "missing id"]) as H.
  { unfold on_message. simpl prop. rewrite Hid.
    by destruct Hv as [->|[->|[->| ->]]]. }
  split; [exact H|]. rewrite H. symmetry.
  by apply missing_id_dropped.
Qed.

Lemma falsy_id_treated_as_missing_witness :
  on_message "A" (Parsed (JObj [("type", JStr "offer"); ("id", JStr "")]))
      {[ "A" := []; "" := [] ]}
    = Returned {[ "A" := []; "" := [] ]} [Log "A" "received"; Log "A" "missing id"] ∧
  on_message "A" (Parsed (JObj [("type", JStr "offer"); ("id", JStr "")]))
      {[ "A" := []; "" := [] ]}
    = on_message "A" (Parsed (JObj [("type", JStr "offer")]))
        {[ "A" := []; "" := [] ]}.
Proof.
  apply (falsy_id_treated_as_missing {[ "A" := []; "" := [] ]} "A"
           [("type", JStr "offer"); ("id", JStr "")] [("type", JStr "offer")]
           (JStr "")).
  - reflexivity.
  - left. reflexivity.
  - reflexivity.
Defined.

(** ** Self-addressed envelopes (C10) *)

(** C10: an envelope from the registered [c] addressed to [c] itself is
    written back to [c] with [id] holding [c]; the array of [c] goes
    through the tracker twice, once in [sendMessage] as receiver and once
    in the message handler as sender, so an [answer] leaves [c] in it two
    more times. *)
Theorem self_addressed_forwarded
    (st : connections) (c : string) (l : list string) (data : json) :
  st !! c = Some l →
  c ≠ "" →
  prop "id" data = Some (JStr c) →
  let data' := set_prop "id" (JStr c) data in
  let st' := alter (trackCallState data' c) c (alter (trackCallState data' c) c st) in
  on_message c (Parsed data) st = Returned st' [Log c "received"; Send c data'] ∧
  prop "id" data' = Some (JStr c) ∧
  (prop "type" data = Some (JStr "answer") → st' !! c = Some (l ++ [c; c])).
Proof.
  intros Hc Hce Hid data' st'.
  split; [exact (on_message_forward c c l data st Hid Hce Hc)|].
  split; [by eapply prop_set_prop_eq|].
  intros Hty. subst st'. rewrite !lookup_alter_eq, Hc. simpl.
  assert (prop "type" data' = Some (JStr "answer")) as Hty'
    by (subst data'; by rewrite prop_set_prop_ne).
  rewrite !(track_answer _ _ _ Hty'). by rewrite <- app_assoc.
Qed.

Lemma self_addressed_forwarded_witness :
  let data' := set_prop "id" (JStr "A") (answer_to "A") in
  let st' := alter (trackCallState data' "A") "A"
               (alter (trackCallState data' "A") "A" two_idle) in
  on_message "A" (Parsed (answer_to "A")) two_idle
    = Returned st' [Log "A" "received"; Send "A" data'] ∧
  prop "id" data' = Some (JStr "A") ∧
  (prop "type" (answer_to "A") = Some (JStr "answer") →
   st' !! "A" = Some ([] ++ ["A"; "A"])).
Proof.
  apply (self_addressed_forwarded two_idle "A" [] (answer_to "A")).
  - vm_compute; reflexivity.
  - discriminate.
  - reflexivity.
Defined.


(** * Further properties of the relay *)

(** ** The tracker, by numbers of occurrences *)

Section Tally.

Implicit Types (p q : string) (l : list string) (data : json).

Lemma track_cases data :
  prop "type" data = Some (JStr "answer") ∨
  prop "type" data = Some (JStr "bye") ∨
  (∀ p l, trackCallState data p l = l) ∧ (∀ n, tally data n = n).
Proof.
  destruct (prop "type" data) as [v|] eqn:E.
  - destruct v as [| | |s| | |];
      try (right; right; split; intros; unfold trackCallState, tally;
           by rewrite E).
    destruct (decide (s = "answer")) as [->|Ha]; [by left|].
    destruct (decide (s = "bye")) as [->|Hb]; [by right; left|].
    right; right. split.
    + intros p l. apply track_other_type; rewrite E; congruence.
    + intros n. unfold tally. rewrite E.
      repeat (match goal with
              | |- context [match ?s with EmptyString => _ | String _ _ => _ end] =>
                  destruct s as [|[[] [] [] [] [] [] [] []] ?]
              end; try done).
  - right; right. split; intros; unfold trackCallState, tally; by rewrite E.
Qed.

Lemma occurrences_positive p l : occurrences p l ≠ O ↔ p ∈ l.
Proof.
  rewrite occurrences_absent. destruct (decide (p ∈ l)); tauto.
Qed.

Lemma track_occurrences_same data p l :
  occurrences p (trackCallState data p l) = tally data (occurrences p l).
Proof.
  destruct (track_cases data) as [Ha|[Hb|[Hn Ht]]].
  - rewrite (track_answer _ _ _ Ha), occurrences_app. unfold tally.
    rewrite Ha. simpl. rewrite String.eqb_refl. lia.
  - rewrite (track_bye_occurrences _ _ _ Hb). unfold tally. by rewrite Hb.
  - by rewrite Hn, Ht.
Qed.

Lemma track_occurrences_other data p q l :
  q ≠ p → occurrences q (trackCallState data p l) = occurrences q l.
Proof.
  intros Hne. destruct (track_cases data) as [Ha|[Hb|[Hn _]]].
  - rewrite (track_answer _ _ _ Ha), occurrences_app. simpl.
    destruct (String.eqb_spec p q); [congruence | lia].
  - destruct (decide (p ∈ l)) as [Hin|Hout].
    + destruct (track_bye_present data p l Hb Hin) as (l1 & l2 & -> & _ & ->).
      rewrite !occurrences_app. simpl.
      destruct (String.eqb_spec p q); [congruence | done].
    + by rewrite track_bye_absent.
  - by rewrite Hn.
Qed.

Lemma track_occurrences data p q l :
  occurrences q (trackCallState data p l)
  = if decide (q = p) then tally data (occurrences q l) else occurrences q l.
Proof.
  case_decide as E; [subst; apply track_occurrences_same|].
  by apply track_occurrences_other.
Qed.

Lemma iter_track_bye_occurrences id q n l :
  occurrences q (Nat.iter n (trackCallState (bye id) id) l)
  = if decide (q = id) then (occurrences q l - n)%nat else occurrences q l.
Proof.
  destruct (decide (q = id)) as [->|Hne].
  - induction n as [|n IH]; simpl; [lia|].
    rewrite track_occurrences_same, IH. unfold tally. simpl. lia.
  - induction n as [|n IH]; simpl; [done|].
    by rewrite track_occurrences_other.
Qed.

End Tally.

(** ** What the handlers do to the registry *)

Section Registry.

Implicit Types (id p a b : string) (l : list string) (data : json)
  (st : connections) (tr : list effect).

(** A message is dropped, thrown on, or forwarded to one registered,
    non-empty identity. *)
Lemma on_message_cases id message st :
  (state_of (on_message id message st) = st ∧
   sends (trace_of (on_message id message st)) = []) ∨
  (∃ data peerId lp,
      message = Parsed data ∧
      prop "id" data = Some (JStr peerId) ∧ peerId ≠ "" ∧
      st !! peerId = Some lp ∧
      on_message id message st
      = Returned (alter (trackCallState (set_prop "id" (JStr id) data) peerId) id
                    (alter (trackCallState (set_prop "id" (JStr id) data) id)
                       peerId st))
          [Log id "received"; Send peerId (set_prop "id" (JStr id) data)]).
Proof.
  destruct message as [|data]; [by left|].
  destruct data as [| | | | |props|]; try by left.
  destruct (lookup_prop "id" props) as [v|] eqn:Hid.
  2: { left. unfold on_message. simpl prop. by rewrite Hid. }
  destruct (truthy (Some v)) eqn:Htr.
  2: { left. unfold on_message. simpl prop. by rewrite Hid, Htr. }
  destruct v as [| | |t| | |];
    try (left; unfold on_message; simpl prop; by rewrite Hid, Htr).
  destruct (st !! t) as [lp|] eqn:Hlp.
  - right. exists (JObj props), t, lp.
    assert (t ≠ "") as Hne by (intros ->; done).
    repeat split; try done.
    by apply on_message_forward with (lp := lp).
  - left. unfold on_message. simpl prop. rewrite Hid, Htr. simpl.
    by rewrite Hlp.
Qed.

Lemma notify_each_state id l : ∀ st p,
  (notify_each id l st).1 !! p
  = Nat.iter (occurrences p l) (trackCallState (bye id) id) <$> st !! p.
Proof.
  induction l as [|x l IH]; intros st p.
  - simpl. by destruct (st !! p).
  - rewrite notify_each_cons. destruct (st !! x) as [lx|] eqn:Hx.
    + cbn [fst]. rewrite IH. cbn [occurrences].
      destruct (String.eqb_spec x p) as [->|Hne].
      * rewrite lookup_alter_eq, Hx. simpl. f_equal. apply Nat.iter_swap.
      * by rewrite lookup_alter_ne.
    + rewrite IH. cbn [occurrences].
      destruct (String.eqb_spec x p) as [->|Hne]; [|done].
      by rewrite Hx.
Qed.

Lemma notify_each_sends id l : ∀ st st0,
  (∀ p, is_Some (st !! p) ↔ is_Some (st0 !! p)) →
  sends (notify_each id l st).2
  = (λ p, (p, bye id)) <$> filter (λ p, is_Some (st0 !! p)) l.
Proof.
  induction l as [|x l IH]; intros st st0 Hsame; [done|].
  rewrite notify_each_cons, filter_cons.
  destruct (st !! x) as [lx|] eqn:Hx.
  - rewrite decide_True by (apply Hsame; by rewrite Hx).
    cbn [snd sends]. rewrite fmap_cons. f_equal.
    apply IH. intros p. rewrite <- Hsame, lookup_alter.
    case_decide; [subst|done]. by rewrite fmap_is_Some.
  - rewrite decide_False.
    + by apply IH.
    + rewrite <- Hsame, Hx. by intros [? ?].
Qed.

Lemma on_close_state id st la p :
  st !! id = Some la →
  state_of (on_close id st) !! p
  = if decide (p = id) then None
    else Nat.iter (occurrences p la) (trackCallState (bye id) id) <$> st !! p.
Proof.
  intros Hla. rewrite on_close_returns, Hla. simpl.
  rewrite notify_each_state. case_decide as E.
  - subst. by rewrite lookup_delete_eq.
  - by rewrite lookup_delete_ne.
Qed.

Lemma run_app twilio es1 es2 st :
  run twilio (es1 ++ es2) st
  = match run twilio es1 st with
    | Returned st1 tr1 =>
        match run twilio es2 st1 with
        | Returned st2 tr2 => Returned st2 (tr1 ++ tr2)
        | Threw x st2 tr2 => Threw x st2 (tr1 ++ tr2)
        end
    | Threw x st1 tr1 => Threw x st1 tr1
    end.
Proof.
  revert st. induction es1 as [|e es1 IH]; intros st; simpl.
  - by destruct (run twilio es2 st).
  - destruct (step twilio e st) as [st1 tr1|x st1 tr1]; [|done].
    rewrite IH. destruct (run twilio es1 st1) as [st2 tr2|x st2 tr2]; [|done].
    destruct (run twilio es2 st2); by rewrite app_assoc.
Qed.

End Registry.

(** ** Mutual tracking is kept *)

Section Mutual.

Implicit Types (id p a b z q : string) (l : list string) (data : json)
  (st : connections).

Lemma forward_occurrences id peerId data st z lz q :
  st !! z = Some lz →
  ∃ lz',
    alter (trackCallState data peerId) id
      (alter (trackCallState data id) peerId st) !! z = Some lz' ∧
    occurrences q lz'
    = (if decide (z = id ∧ q = peerId) then tally data else λ n, n)
        ((if decide (z = peerId ∧ q = id) then tally data else λ n, n)
           (occurrences q lz)).
Proof.
  intros Hz. rewrite !lookup_alter.
  destruct (decide (id = z)) as [->|Hzi];
    (destruct (decide (peerId = z)) as [->|Hpz]);
    rewrite ?Hz; simpl; (eexists; split; [reflexivity|]);
    rewrite ?track_occurrences;
    repeat case_decide; try done; exfalso; intuition congruence.
Qed.

Lemma forward_registered id peerId data st z :
  is_Some (alter (trackCallState data peerId) id
             (alter (trackCallState data id) peerId st) !! z)
  ↔ is_Some (st !! z).
Proof.
  rewrite !lookup_alter.
  repeat case_decide; subst; rewrite ?fmap_is_Some; done.
Qed.

Lemma mutual_empty : mutual ∅.
Proof. split; intros *; by rewrite lookup_empty. Qed.

Lemma mutual_connection twilio id st :
  mutual st → mutual (state_of (on_connection twilio id st)).
Proof.
  intros [Hlive Hsym]. unfold on_connection.
  destruct (st !! id) as [l0|] eqn:Hid; [done|]. simpl. split.
  - intros a la b Ha Hb. rewrite lookup_insert_is_Some.
    destruct (decide (id = a)) as [<-|Hne].
    + rewrite lookup_insert_eq in Ha. injection Ha as <-.
      by apply not_elem_of_nil in Hb.
    + rewrite lookup_insert_ne in Ha by done.
      destruct (decide (id = b)); [by left|].
      right. split; [done|]. by eapply Hlive.
  - assert (∀ q lq, st !! q = Some lq → occurrences id lq = O) as Hfresh.
    { intros q lq Hq. apply occurrences_absent. intros Hin.
      destruct (Hlive q lq id Hq Hin) as [? ?]. congruence. }
    intros a b la lb Ha Hb.
    destruct (decide (id = a)) as [<-|Hna];
      destruct (decide (id = b)) as [<-|Hnb].
    + congruence.
    + rewrite lookup_insert_eq in Ha. rewrite lookup_insert_ne in Hb by done.
      injection Ha as <-. simpl. symmetry. by eapply Hfresh.
    + rewrite lookup_insert_eq in Hb. rewrite lookup_insert_ne in Ha by done.
      injection Hb as <-. simpl. by eapply Hfresh.
    + rewrite lookup_insert_ne in Ha, Hb by done. by eapply Hsym.
Qed.

Lemma mutual_message id message st :
  is_Some (st !! id) →
  mutual st → mutual (state_of (on_message id message st)).
Proof.
  intros Hreg [Hlive Hsym].
  destruct (on_message_cases id message st)
    as [[-> _]|(data & peerId & lp & -> & Hid & Hne & Hp & ->)]; [done|].
  simpl. set (d := set_prop "id" (JStr id) data). split.
  - intros a la' b Ha' Hb.
    assert (is_Some (st !! a)) as [la Ha]
      by (apply (forward_registered id peerId d); by rewrite Ha').
    destruct (forward_occurrences id peerId d st a la b Ha) as (l' & Hl' & Hocc).
    rewrite Ha' in Hl'. injection Hl' as <-.
    apply forward_registered.
    apply occurrences_positive in Hb.
    destruct (decide (a = id ∧ b = peerId)) as [[-> ->]|_]; [by rewrite Hp|].
    destruct (decide (a = peerId ∧ b = id)) as [[-> ->]|_]; [done|].
    apply (Hlive a la b Ha), occurrences_positive. by rewrite <- Hocc.
  - intros a b la' lb' Ha' Hb'.
    assert (is_Some (st !! a)) as [la Ha]
      by (apply (forward_registered id peerId d); by rewrite Ha').
    assert (is_Some (st !! b)) as [lb Hb]
      by (apply (forward_registered id peerId d); by rewrite Hb').
    destruct (forward_occurrences id peerId d st a la b Ha) as (l1 & Hl1 & Ho1).
    destruct (forward_occurrences id peerId d st b lb a Hb) as (l2 & Hl2 & Ho2).
    rewrite Ha' in Hl1. rewrite Hb' in Hl2.
    injection Hl1 as <-. injection Hl2 as <-.
    rewrite Ho1, Ho2, (Hsym a b la lb Ha Hb).
    repeat case_decide; try done; exfalso; intuition congruence.
Qed.

Lemma on_close_unregistered id st :
  st !! id = None → on_close id st = Returned st [Log id "Connection closed"].
Proof.
  intros Hid. rewrite on_close_returns, Hid. simpl. by rewrite delete_id.
Qed.

Lemma mutual_close id st :
  mutual st → mutual (state_of (on_close id st)).
Proof.
  intros [Hlive Hsym].
  destruct (st !! id) as [la|] eqn:Hid;
    [|by rewrite on_close_unregistered].
  assert (∀ z lz', state_of (on_close id st) !! z = Some lz' →
            z ≠ id ∧ ∃ lz, st !! z = Some lz ∧
              ∀ q, occurrences q lz'
                   = if decide (q = id) then O else occurrences q lz) as Hafter.
  { intros z lz'. rewrite (on_close_state id st la z Hid).
    case_decide as Hz; [done|]. destruct (st !! z) as [lz|] eqn:Hlz; [|done].
    simpl. intros [= <-]. split; [done|]. exists lz. split; [done|].
    intros q. rewrite iter_track_bye_occurrences.
    case_decide as Hq; [|done]. subst q.
    rewrite (Hsym z id lz la Hlz Hid). lia. }
  split.
  - intros a la' b Ha' Hb.
    destruct (Hafter a la' Ha') as (Hna & la0 & Ha & Hocc).
    apply occurrences_positive in Hb. rewrite Hocc in Hb.
    case_decide as Hbi; [done|].
    destruct (Hlive a la0 b Ha) as [lb Hlb]; [by apply occurrences_positive|].
    rewrite (on_close_state id st la b Hid), decide_False, Hlb by done. done.
  - intros a b la' lb' Ha' Hb'.
    destruct (Hafter a la' Ha') as (Hna & la0 & Ha & Hoa).
    destruct (Hafter b lb' Hb') as (Hnb & lb0 & Hb & Hob).
    rewrite Hoa, Hob, !decide_False by done. by eapply Hsym.
Qed.

Lemma mutual_step twilio e st :
  has_listener e st = true →
  mutual st → mutual (state_of (step twilio e st)).
Proof.
  intros Hl Hm. destruct e as [id|id message|id|id s]; simpl in *.
  - by apply mutual_connection.
  - apply mutual_message; [|done]. by apply bool_decide_eq_true in Hl.
  - by apply mutual_close.
  - by destruct s as [[]|].
Qed.

Lemma mutual_run twilio es : ∀ st,
  admissible twilio es st = true →
  mutual st → mutual (state_of (run twilio es st)).
Proof.
  induction es as [|e es IH]; intros st Hadm Hm; [done|].
  simpl in *. apply andb_true_iff in Hadm as [Hl Hadm].
  pose proof (mutual_step twilio e st Hl Hm) as Hm1.
  destruct (step twilio e st) as [st1 tr1|x st1 tr1]; [|done].
  specialize (IH st1 Hadm Hm1).
  by destruct (run twilio es st1).
Qed.


End Mutual.

(** ** What a message can and cannot do *)

(** X1: a message, whatever it holds, registers nobody and removes nobody
    from the registry. *)
Theorem message_keeps_registered
    (id : string) (message : parse_result) (st : connections) :
  dom (state_of (on_message id message st)) = dom st.
Proof.
  destruct (on_message_cases id message st)
    as [[-> _]|(data & peerId & lp & -> & _ & _ & _ & ->)]; [done|].
  simpl. by rewrite !dom_alter_L.
Qed.

(** X2: a message makes the router write at most one envelope; that
    envelope goes to the registered, non-empty identity the message named
    in [id], and its own [id] is the sender's identity. *)
Theorem message_forwards_once_with_sender_id
    (id to : string) (message : parse_result) (st : connections) (d : json) :
  (to, d) ∈ sends (trace_of (on_message id message st)) →
  sends (trace_of (on_message id message st)) = [(to, d)] ∧
  is_Some (st !! to) ∧ to ≠ "" ∧
  prop "id" d = Some (JStr id) ∧
  ∃ data, message = Parsed data ∧ prop "id" data = Some (JStr to) ∧
          d = set_prop "id" (JStr id) data.
Proof.
  destruct (on_message_cases id message st)
    as [[_ ->]|(data & peerId & lp & -> & Hid & Hne & Hp & ->)].
  - intros H. by apply not_elem_of_nil in H.
  - simpl. intros H. apply list_elem_of_singleton in H. injection H as -> ->.
    repeat split; try done.
    + by eapply prop_set_prop_eq.
    + by exists data.
Qed.

Lemma message_forwards_once_with_sender_id_witness :
  sends (trace_of (on_message "A" (Parsed (offer_to "B")) two_idle))
    = [("B", offer_to "A")] ∧
  is_Some (two_idle !! "B") ∧ "B" ≠ "" ∧
  prop "id" (offer_to "A") = Some (JStr "A") ∧
  ∃ data, Parsed (offer_to "B") = Parsed data ∧
          prop "id" data = Some (JStr "B") ∧
          offer_to "A" = set_prop "id" (JStr "A") data.
Proof.
  apply (message_forwards_once_with_sender_id "A" "B" (Parsed (offer_to "B"))
           two_idle (offer_to "A")).
  vm_compute. apply list_elem_of_here.
Defined.

(** X3: a message whose [type] is neither ["answer"] nor ["bye"] leaves
    the registry and every array as they were, whether it is forwarded or
    dropped. *)
Theorem other_types_leave_state
    (id : string) (data : json) (st : connections) :
  prop "type" data ≠ Some (JStr "answer") →
  prop "type" data ≠ Some (JStr "bye") →
  state_of (on_message id (Parsed data) st) = st.
Proof.
  intros Ha Hb.
  destruct (on_message_cases id (Parsed data) st)
    as [[-> _]|(data' & peerId & lp & [= <-] & _ & _ & _ & ->)]; [done|].
  simpl. rewrite !alter_id; [done|..]; intros;
    apply track_other_type; by rewrite prop_set_prop_ne.
Qed.

Lemma other_types_leave_state_witness :
  state_of (on_message "A"
              (Parsed (JObj [("type", JStr "candidate"); ("id", JStr "B")]))
              {[ "A" := ["B"]; "B" := ["A"] ]})
  = {[ "A" := ["B"]; "B" := ["A"] ]}.
Proof.
  apply (other_types_leave_state "A"
           (JObj [("type", JStr "candidate"); ("id", JStr "B")])
           {[ "A" := ["B"]; "B" := ["A"] ]}); discriminate.
Defined.

(** X4: a message changes no array but the sender's and that of the
    identity it names. *)
Theorem message_touches_sender_and_target_only
    (id z : string) (data : json) (st : connections) :
  z ≠ id →
  prop "id" data ≠ Some (JStr z) →
  state_of (on_message id (Parsed data) st) !! z = st !! z.
Proof.
  intros Hz Ht.
  destruct (on_message_cases id (Parsed data) st)
    as [[-> _]|(data' & peerId & lp & [= <-] & Hid & _ & _ & ->)]; [done|].
  simpl. rewrite !lookup_alter_ne; [done| |done]. congruence.
Qed.

Lemma message_touches_sender_and_target_only_witness :
  state_of (on_message "A" (Parsed (answer_to "B"))
              {[ "A" := []; "B" := []; "C" := ["D"] ]}) !! "C"
  = ({[ "A" := []; "B" := []; "C" := ["D"] ]} : connections) !! "C".
Proof.
  apply (message_touches_sender_and_target_only "A" "C" (answer_to "B")
           {[ "A" := []; "B" := []; "C" := ["D"] ]}); discriminate.
Defined.

(** ** What a close does *)

(** X6: a socket that registers under a fresh id and closes before it has
    taken part in anything leaves the registry and every array as they
    were, and no other socket is written to. *)
Theorem connect_then_close_restores
    (twilio : bool) (st : connections) (id : string) :
  st !! id = None →
  ∃ tr,
    run twilio [Connection id; Close id] st = Returned st tr ∧
    ∀ p, p ≠ id → sent_to p tr = [].
Proof.
  intros Hfresh. simpl. unfold on_connection. rewrite Hfresh.
  rewrite on_close_returns, lookup_insert_eq. simpl.
  rewrite delete_insert_eq, delete_id by done.
  eexists. split; [reflexivity|].
  intros p Hp. simpl.
  destruct (String.eqb_spec id p) as [->|_]; [done|].
  destruct twilio; simpl; [done|].
  by destruct (String.eqb_spec id p).
Qed.

Lemma connect_then_close_restores_witness :
  ∃ tr,
    run false [Connection "C"; Close "C"] two_idle = Returned two_idle tr ∧
    ∀ p, p ≠ "C" → sent_to p tr = [].
Proof.
  apply (connect_then_close_restores false two_idle "C").
  vm_compute; reflexivity.
Defined.

(** X7: the close handler writes one [bye] to every entry of the closing
    socket's array that is the id of another registered socket, in the
    order of the array and as often as the entry occurs, and writes
    nothing else. *)
Theorem close_notifies_registered_entries
    (st : connections) (id : string) (la : list string) :
  st !! id = Some la →
  sends (trace_of (on_close id st))
  = (λ p, (p, bye id)) <$> filter (λ p, is_Some (delete id st !! p)) la.
Proof.
  intros Hla. rewrite on_close_returns, Hla. simpl.
  by apply notify_each_sends.
Qed.

Lemma close_notifies_registered_entries_witness :
  sends (trace_of (on_close "A" {[ "A" := ["B"; "Z"; "A"; "B"]; "B" := [] ]}))
  = (λ p, (p, bye "A"))
      <$> filter (λ p, is_Some (delete "A"
                     ({[ "A" := ["B"; "Z"; "A"; "B"]; "B" := [] ]} : connections)
                     !! p))
            ["B"; "Z"; "A"; "B"].
Proof.
  apply (close_notifies_registered_entries
           {[ "A" := ["B"; "Z"; "A"; "B"]; "B" := [] ]} "A" ["B"; "Z"; "A"; "B"]).
  vm_compute; reflexivity.
Defined.

(** X8: after the close of [id] the registry no longer holds [id]; the
    array of every other socket [p] has lost as many occurrences of [id] as
    [p] occurred in the array of [id] (all of them when it had fewer), and
    holds every other identity as often as before. *)
Theorem close_takes_id_out_of_peer_arrays
    (st : connections) (id p : string) (la lp : list string) :
  st !! id = Some la → st !! p = Some lp → p ≠ id →
  state_of (on_close id st) !! id = None ∧
  ∃ lp',
    state_of (on_close id st) !! p = Some lp' ∧
    occurrences id lp' = (occurrences id lp - occurrences p la)%nat ∧
    ∀ q, q ≠ id → occurrences q lp' = occurrences q lp.
Proof.
  intros Hla Hlp Hne.
  rewrite !(on_close_state id st la _ Hla).
  rewrite decide_True, decide_False, Hlp by done. simpl.
  split; [done|]. eexists. split; [reflexivity|]. split.
  - by rewrite iter_track_bye_occurrences, decide_True.
  - intros q Hq. by rewrite iter_track_bye_occurrences, decide_False.
Qed.

Lemma close_takes_id_out_of_peer_arrays_witness :
  state_of (on_close "A" {[ "A" := ["B"; "B"]; "B" := ["A"; "C"; "A"; "A"] ]})
    !! "A" = None ∧
  ∃ lp',
    state_of (on_close "A" {[ "A" := ["B"; "B"]; "B" := ["A"; "C"; "A"; "A"] ]})
      !! "B" = Some lp' ∧
    occurrences "A" lp'
      = (occurrences "A" ["A"; "C"; "A"; "A"] - occurrences "B" ["B"; "B"])%nat ∧
    ∀ q, q ≠ "A" → occurrences q lp' = occurrences q ["A"; "C"; "A"; "A"].
Proof.
  apply (close_takes_id_out_of_peer_arrays
           {[ "A" := ["B"; "B"]; "B" := ["A"; "C"; "A"; "A"] ]} "A" "B"
           ["B"; "B"] ["A"; "C"; "A"; "A"]).
  - vm_compute; reflexivity.
  - vm_compute; reflexivity.
  - discriminate.
Defined.

(** ** Reachable states *)

(** X9: in every state the server reaches from the empty registry, the
    arrays name registered sockets only, and [b] is in the array of [a]
    exactly as often as [a] is in the array of [b]. *)
Theorem reachable_states_are_mutual (twilio : bool) (es : list event) :
  admissible twilio es ∅ = true →
  mutual (state_of (run twilio es ∅)).
Proof. intros Hadm. apply mutual_run; [done | apply mutual_empty]. Qed.

Lemma reachable_states_are_mutual_witness :
  mutual (state_of (run false
    [Connection "A"; Connection "B";
     Message "A" (Parsed (answer_to "B"));
     Message "B" (Parsed (answer_to "A"));
     Message "B" (Parsed (bye_to "A"))] ∅)).
Proof.
  apply (reachable_states_are_mutual false
    [Connection "A"; Connection "B";
     Message "A" (Parsed (answer_to "B"));
     Message "B" (Parsed (answer_to "A"));
     Message "B" (Parsed (bye_to "A"))]).
  vm_compute; reflexivity.
Defined.

Lemma filter_ext_elem_of {A} (P1 P2 : A → Prop)
    `{!∀ x, Decision (P1 x), !∀ x, Decision (P2 x)} (l : list A) :
  (∀ x, x ∈ l → P1 x ↔ P2 x) → filter P1 l = filter P2 l.
Proof.
  induction l as [|a l IH]; intros Hiff; [done|].
  rewrite !filter_cons.
  rewrite IH by (intros x Hx; apply Hiff; by right).
  apply decide_ext, Hiff. by left.
Qed.

(** X10: when the arrays are mutual, as they are in every reachable state,
    the close of [id] leaves no array that names [id], and it writes a
    [bye] for every entry of its array other than [id] itself: the test
    for an unregistered peer skips nothing else. *)
Theorem close_forgets_id_everywhere
    (st : connections) (id : string) (la : list string) :
  mutual st →
  st !! id = Some la →
  (∀ p lp, state_of (on_close id st) !! p = Some lp → id ∉ lp) ∧
  sends (trace_of (on_close id st))
  = (λ p, (p, bye id)) <$> filter (λ p, p ≠ id) la.
Proof.
  intros Hm Hla. split.
  - intros p lp Hp Hin.
    destruct (mutual_close id st Hm) as [Hlive _].
    destruct (Hlive p lp id Hp Hin) as [l Hl].
    pose proof (on_close_state id st la id Hla) as Hgone.
    rewrite decide_True in Hgone by done. congruence.
  - rewrite on_close_returns, Hla. simpl.
    rewrite (notify_each_sends id la (delete id st) (delete id st)) by done.
    f_equal. apply filter_ext_elem_of.
    intros p Hp. rewrite lookup_delete_is_Some.
    destruct Hm as [Hlive _]. split; [by intros [? _]|].
    intros Hne. split; [done|]. by eapply Hlive.
Qed.

Lemma close_forgets_id_everywhere_witness :
  (∀ p lp,
      state_of (on_close "A" after_two_answers) !! p = Some lp → "A" ∉ lp) ∧
  sends (trace_of (on_close "A" after_two_answers))
  = (λ p, (p, bye "A")) <$> filter (λ p, p ≠ "A") ["B"; "A"; "A"].
Proof.
  apply (close_forgets_id_everywhere after_two_answers "A" ["B"; "A"; "A"]).
  - apply mutual_run; [vm_compute; reflexivity | apply mutual_empty].
  - vm_compute; reflexivity.
Defined.

(** ** When the server stops *)



(** ** The tracker on duplicates *)

Lemma indexOf_first p (l1 l2 : list string) :
  p ∉ l1 → indexOf (l1 ++ p :: l2) p = Z.of_nat (length l1).
Proof.
  induction l1 as [|x l1 IH]; simpl.
  - intros _. by rewrite String.eqb_refl.
  - intros Hout. apply not_elem_of_cons in Hout as [Hne Hout].
    destruct (String.eqb_spec x p); [congruence|].
    rewrite (IH Hout).
    destruct (Z.eqb_spec (Z.of_nat (length l1)) (-1)); lia.
Qed.

(** X12: a [bye] transition takes out the first occurrence of the peer and
    nothing else: later occurrences stay, and so does the order of the
    array. *)
Theorem bye_removes_first_occurrence
    (data : json) (p : string) (l1 l2 : list string) :
  prop "type" data = Some (JStr "bye") →
  p ∉ l1 →
  trackCallState data p (l1 ++ p :: l2) = l1 ++ l2.
Proof.
  intros Hty Hout. unfold trackCallState. rewrite Hty.
  rewrite (indexOf_first p l1 l2 Hout).
  destruct (Z.eqb_spec (Z.of_nat (length l1)) (-1)); [lia|]. simpl.
  unfold splice1. rewrite Nat2Z.id. apply delete_middle.
Qed.

Lemma bye_removes_first_occurrence_witness :
  trackCallState (bye_to "B") "B" (["C"] ++ "B" :: ["D"; "B"]) = ["C"] ++ ["D"; "B"].
Proof.
  apply (bye_removes_first_occurrence (bye_to "B") "B" ["C"] ["D"; "B"]).
  - reflexivity.
  - intros H. apply list_elem_of_singleton in H. discriminate.
Defined.

(** * The static pages *)

Import Http.

Section Pathname.

Implicit Types (c : Ascii.ascii) (s p q u : string).

Lemma app_cons x s1 s2 : String x s1 +:+ s2 = String x (s1 +:+ s2).
Proof. reflexivity. Qed.

Lemma app_empty_l s : "" +:+ s = s.
Proof. reflexivity. Qed.

Lemma app_empty_r s : s +:+ "" = s.
Proof.
  induction s as [|x s IH]; [done|]. by rewrite app_cons, IH.
Qed.

Lemma app_app s1 s2 s3 : (s1 +:+ s2) +:+ s3 = s1 +:+ (s2 +:+ s3).
Proof.
  induction s1 as [|x s1 IH]; [done|]. by rewrite !app_cons, IH.
Qed.

Lemma before_prefix c s : ∃ rest, s = before c s +:+ rest.
Proof.
  induction s as [|x s [rest IH]]; simpl; [by exists ""|].
  destruct (Ascii.eqb x c); [by eexists|].
  exists rest. by rewrite app_cons, <- IH.
Qed.

Lemma before_lacks c s : lacks c (before c s).
Proof.
  induction s as [|x s IH]; intros s1 s2; simpl.
  - by destruct s1.
  - destruct (Ascii.eqb_spec x c) as [->|Hne]; [by destruct s1|].
    destruct s1 as [|y s1]; rewrite ?app_cons, ?app_empty_l; [congruence|].
    intros [= -> H]. by apply IH in H.
Qed.

Lemma lacks_prefix c p rest : lacks c (p +:+ rest) → lacks c p.
Proof.
  intros H s1 s2 ->. apply (H s1 (s2 +:+ rest)).
  by rewrite app_app, app_cons.
Qed.

Lemma lacks_tail c x s : lacks c (String x s) → x ≠ c ∧ lacks c s.
Proof.
  intros H. split.
  - intros ->. by apply (H "" s).
  - intros s1 s2 ->. by apply (H (String x s1) s2).
Qed.

Lemma before_app c p s : lacks c p → before c (p +:+ s) = p +:+ before c s.
Proof.
  induction p as [|x p IH]; [done|].
  intros [Hx Hp]%lacks_tail. rewrite !app_cons. simpl.
  destruct (Ascii.eqb_spec x c); [done|]. by rewrite IH.
Qed.

Lemma before_id c p : lacks c p → before c p = p.
Proof.
  intros H. rewrite <- (app_empty_r p) at 1.
  rewrite before_app by done. simpl. apply app_empty_r.
Qed.

End Pathname.

(** X13: the pathname the handler falls back on holds no ['?'] and no
    ['#'], and the request's url starts with it. *)
Theorem simple_pathname_is_clean (u : string) :
  lacks "?" (simple_pathname u) ∧
  lacks "#" (simple_pathname u) ∧
  ∃ rest, u = simple_pathname u +:+ rest.
Proof.
  unfold simple_pathname.
  destruct (before_prefix "?" u) as [r1 H1].
  destruct (before_prefix "#" (before "?" u)) as [r2 H2].
  split; [|split].
  - apply (lacks_prefix _ _ r2). rewrite <- H2. apply before_lacks.
  - apply before_lacks.
  - exists (r2 +:+ r1). by rewrite <- app_app, <- H2.
Qed.

(** X14: without a [Host] header a query string or a fragment changes
    nothing: a url made of [p], which holds neither ['?'] nor ['#'],
    followed by ['?'] or ['#'] and anything, is served as [p] is. *)
Theorem query_and_fragment_are_ignored
    (req : request) (pf : platform) (p q : string) :
  host req = None →
  lacks "?" p → lacks "#" p →
  url req = p +:+ String "?" q ∨ url req = p +:+ String "#" q →
  on_request req pf
  = on_request {| method := method req; url := p; host := None |} pf.
Proof.
  intros Hh Hq Hf Hu.
  assert (simple_pathname (url req) = p) as H1.
  { unfold simple_pathname. destruct Hu as [->| ->].
    - rewrite (before_app "?" p) by done. simpl.
      rewrite app_empty_r. by apply before_id.
    - rewrite (before_app "?" p) by done. simpl.
      rewrite (before_app "#" p) by done. simpl. apply app_empty_r. }
  assert (simple_pathname p = p) as H2.
  { unfold simple_pathname.
    by rewrite (before_id "?" p Hq), (before_id "#" p Hf). }
  unfold on_request, pathname_of. rewrite Hh. simpl. by rewrite H1, H2.
Qed.

Lemma query_and_fragment_are_ignored_witness :
  on_request {| method := "GET"; url := "/main.js?v=2#top"; host := None |}
    {| url_pathname := None; log_time := "t"; body_time := "t" |}
  = on_request {| method := "GET"; url := "/main.js"; host := None |}
      {| url_pathname := None; log_time := "t"; body_time := "t" |}.
Proof.
  apply (query_and_fragment_are_ignored
           {| method := "GET"; url := "/main.js?v=2#top"; host := None |}
           {| url_pathname := None; log_time := "t"; body_time := "t" |}
           "/main.js" "v=2#top").
  - reflexivity.
  - change "/main.js" with (before "?" "/main.js"). apply before_lacks.
  - change "/main.js" with (before "#" "/main.js"). apply before_lacks.
  - left. reflexivity.
Defined.

Section Routes.

Implicit Types (p f : string) (req : request) (pf : platform).

Lemma own_elem_of (table : list (string * string)) p f :
  own table p = Some f → (p, f) ∈ table.
Proof.
  induction table as [|[k v] rest IH]; simpl; [done|].
  destruct (String.eqb_spec p k) as [->|_].
  - intros [= ->]. by left.
  - intros H. right. by apply IH.
Qed.

Lemma route_has_content_type p f :
  own urlToPath p = Some f → ∃ ct, own urlToContentType p = Some ct.
Proof.
  unfold urlToPath, urlToContentType. simpl.
  repeat (destruct (String.eqb p _); [by eexists|]). done.
Qed.

Lemma favicon_is_no_route p :
  includes p "favicon" = true →
  p ≠ "/test" ∧ p ≠ "/test/" ∧ get urlToPath p = Undefined.
Proof.
  intros H.
  split; [intros ->; vm_compute in H; discriminate|].
  split; [intros ->; vm_compute in H; discriminate|].
  unfold get. destruct (own urlToPath p) as [f|] eqn:Hown.
  - apply own_elem_of in Hown. unfold urlToPath in Hown.
    repeat (apply elem_of_cons in Hown as [[= -> _]|Hown];
            [vm_compute in H; discriminate|]).
    by apply not_elem_of_nil in Hown.
  - case_bool_decide as Hin; [|done]. unfold Object_prototype in Hin.
    repeat (apply elem_of_cons in Hin as [->|Hin];
            [vm_compute in H; discriminate|]).
    by apply not_elem_of_nil in Hin.
Qed.

Lemma prototype_names_have_no_slash p :
  p ∈ Object_prototype → String.prefix "/" p = false.
Proof.
  unfold Object_prototype. intros Hin.
  repeat (apply elem_of_cons in Hin as [->|Hin]; [reflexivity|]).
  by apply not_elem_of_nil in Hin.
Qed.

End Routes.

(** X15: every answer of the request handler and of its file callback has
    status 200, 204 or 404 and starts its headers with
    [Strict-Transport-Security]. *)
Theorem every_answer_is_hardened
    (req : request) (pf : platform) (log : list string) (r : response)
    (pathname filename : string) (res : read_result) :
  on_request req pf = Answered log r →
  ((∃ more, headers r = security_headers ++ more) ∧
   (status r = 200 ∨ status r = 204 ∨ status r = 404)) ∧
  ((∃ more, headers (on_read pathname filename res).2 = security_headers ++ more) ∧
   (status (on_read pathname filename res).2 = 200 ∨
    status (on_read pathname filename res).2 = 404)).
Proof.
  intros H. split.
  - unfold on_request in H.
    destruct (_ || _) in H.
    { injection H as _ <-. split; [by eexists|by left]. }
    destruct (get urlToPath _) in H; try done.
    destruct (includes _ _) in H; injection H as _ <-.
    + split; [by exists []|by right; left].
    + split; [by exists []|by right; right].
  - destruct res; simpl; (split; [by eexists|]); [by right|by left].
Qed.

Lemma every_answer_is_hardened_witness :
  ((∃ more,
       headers {| status := 404; headers := security_headers; body := None |}
       = security_headers ++ more) ∧
   (status {| status := 404; headers := security_headers; body := None |} = 200 ∨
    status {| status := 404; headers := security_headers; body := None |} = 204 ∨
    status {| status := 404; headers := security_headers; body := None |} = 404)) ∧
  ((∃ more,
       headers (on_read "/" "static/index.html" (ReadData "<html>")).2
       = security_headers ++ more) ∧
   (status (on_read "/" "static/index.html" (ReadData "<html>")).2 = 200 ∨
    status (on_read "/" "static/index.html" (ReadData "<html>")).2 = 404)).
Proof.
  apply (every_answer_is_hardened
           {| method := "GET"; url := "/../server.js"; host := None |}
           {| url_pathname := None; log_time := "t"; body_time := "t" |}
           ["t - GET /../server.js"; "404 - File not found: /../server.js"]
           {| status := 404; headers := security_headers; body := None |}
           "/" "static/index.html" (ReadData "<html>")).
  vm_compute; reflexivity.
Defined.

(** X16: whatever the request, the handler asks [fs.readFile] for nothing
    but one of the four files of its table, under the pathname that is the
    file's key; the one other thing it can pass on is a member inherited
    from [Object.prototype], and only for a pathname that does not start
    with a slash. *)
Theorem only_static_files_are_read
    (req : request) (pf : platform) (log : list string) (v : value) :
  on_request req pf = Reading log v →
  (∃ f, v = Str f ∧ (pathname_of req pf, f) ∈ urlToPath ∧
        f ∈ ["static/index.html"; "static/no-autodial.html";
             "static/main.js"; "static/main.css"]) ∨
  (v = ProtoMember ∧ pathname_of req pf ∈ Object_prototype ∧
   String.prefix "/" (pathname_of req pf) = false).
Proof.
  unfold on_request. set (p := pathname_of req pf).
  destruct (_ || _); [done|].
  unfold get. destruct (own urlToPath p) as [f|] eqn:Hown.
  - intros [= _ <-]. left. exists f. split; [done|].
    apply own_elem_of in Hown. split; [done|].
    unfold urlToPath in Hown.
    repeat (apply elem_of_cons in Hown as [[= _ ->]|Hown];
            [set_solver|]).
    by apply not_elem_of_nil in Hown.
  - case_bool_decide as Hin.
    + intros [= _ <-]. right. split; [done|]. split; [done|].
      by apply prototype_names_have_no_slash.
    + by destruct (includes p "favicon").
Qed.

Lemma only_static_files_are_read_witness :
  (∃ f, Str "static/main.css" = Str f ∧
        (pathname_of {| method := "GET"; url := "/x"; host := Some "h" |}
           {| url_pathname := Some "/main.css"; log_time := "t"; body_time := "t" |},
         f) ∈ urlToPath ∧
        f ∈ ["static/index.html"; "static/no-autodial.html";
             "static/main.js"; "static/main.css"]) ∨
  (Str "static/main.css" = ProtoMember ∧
   pathname_of {| method := "GET"; url := "/x"; host := Some "h" |}
     {| url_pathname := Some "/main.css"; log_time := "t"; body_time := "t" |}
     ∈ Object_prototype ∧
   String.prefix "/"
     (pathname_of {| method := "GET"; url := "/x"; host := Some "h" |}
        {| url_pathname := Some "/main.css"; log_time := "t"; body_time := "t" |})
   = false).
Proof.
  apply (only_static_files_are_read
           {| method := "GET"; url := "/x"; host := Some "h" |}
           {| url_pathname := Some "/main.css"; log_time := "t"; body_time := "t" |}
           ["t - GET /main.css"] (Str "static/main.css")).
  vm_compute; reflexivity.
Defined.

(** X17: when the handler has started to read a file of its table and the
    read succeeds, the answer is a 200 with the file's bytes and a
    [Content-Type] that is a string of the content-type table, never
    [undefined]. *)
Theorem served_file_has_content_type
    (req : request) (pf : platform) (log : list string) (f data : string) :
  on_request req pf = Reading log (Str f) →
  ∃ ct,
    (pathname_of req pf, ct) ∈ urlToContentType ∧
    on_read (pathname_of req pf) f (ReadData data)
    = ([], {| status := 200;
              headers := security_headers ++ [("Content-Type", Str ct)];
              body := Some (Bytes data) |}).
Proof.
  unfold on_request. set (p := pathname_of req pf).
  destruct (_ || _); [done|].
  unfold get at 1. destruct (own urlToPath p) as [f'|] eqn:Hown.
  - intros _. destruct (route_has_content_type p f' Hown) as [ct Hct].
    exists ct. split; [by apply own_elem_of|].
    unfold on_read, get. by rewrite Hct.
  - case_bool_decide; [done|]. by destruct (includes p "favicon").
Qed.

Lemma served_file_has_content_type_witness :
  ∃ ct,
    (pathname_of {| method := "GET"; url := "/main.js?x"; host := None |}
       {| url_pathname := None; log_time := "t"; body_time := "t" |}, ct)
      ∈ urlToContentType ∧
    on_read
      (pathname_of {| method := "GET"; url := "/main.js?x"; host := None |}
         {| url_pathname := None; log_time := "t"; body_time := "t" |})
      "static/main.js" (ReadData "js")
    = ([], {| status := 200;
              headers := security_headers ++ [("Content-Type", Str ct)];
              body := Some (Bytes "js") |}).
Proof.
  apply (served_file_has_content_type
           {| method := "GET"; url := "/main.js?x"; host := None |}
           {| url_pathname := None; log_time := "t"; body_time := "t" |}
           ["t - GET /main.js"] "static/main.js" "js").
  vm_compute; reflexivity.
Defined.

(** X18: a request whose pathname holds "favicon" is answered 204 with no
    body, is not logged, and makes the handler read no file. *)
Theorem favicon_is_silent (req : request) (pf : platform) :
  includes (pathname_of req pf) "favicon" = true →
  on_request req pf
  = Answered [] {| status := 204; headers := security_headers; body := None |}.
Proof.
  intros H. destruct (favicon_is_no_route _ H) as (H1 & H2 & H3).
  unfold on_request. rewrite H, H3. simpl.
  destruct (String.eqb_spec (pathname_of req pf) "/test"); [done|].
  by destruct (String.eqb_spec (pathname_of req pf) "/test/").
Qed.

Lemma favicon_is_silent_witness :
  on_request {| method := "GET"; url := "/favicon.ico"; host := None |}
    {| url_pathname := None; log_time := "t"; body_time := "t" |}
  = Answered [] {| status := 204; headers := security_headers; body := None |}.
Proof.
  apply (favicon_is_silent
           {| method := "GET"; url := "/favicon.ico"; host := None |}
           {| url_pathname := None; log_time := "t"; body_time := "t" |}).
  vm_compute; reflexivity.
Defined.

(** * Network addresses *)

Import Net.

Section Addresses.

Implicit Types (nis : list (string * list iface)) (i : iface).

Lemma external_ipv4_spec i :
  external_ipv4 i = true ↔ family i = JStr "IPv4" ∧ internal i = false.
Proof.
  unfold external_ipv4. destruct (family i) as [| | |s| | |] eqn:E;
    try (split; [done | by intros [? _]]).
  destruct (decide (s = "IPv4")) as [->|Hs].
  - destruct (internal i); split; try done; by intros [_ ?].
  - split; [|intros [[= ?] _]; done].
    repeat (match goal with
            | |- context [match ?s with EmptyString => _ | String _ _ => _ end] =>
                destruct s as [|[[] [] [] [] [] [] [] []] ?]
            end; try done).
Qed.

Lemma pushed_allIPs nis : pushed nis = (allIPs nis).*2.
Proof.
  induction nis as [|[name ifaces] rest IH]; [done|]. simpl.
  rewrite fmap_app, IH. f_equal.
  rewrite <- list_fmap_compose. done.
Qed.

End Addresses.

(** X19: the server lists under "Network access" exactly the addresses of
    the entries that are IPv4 and not internal, each with the name of its
    interface. *)
Theorem allIPs_are_the_external_ipv4
    (nis : list (string * list iface)) (name addr : string) :
  (name, addr) ∈ allIPs nis ↔
  ∃ ifaces i,
    (name, ifaces) ∈ nis ∧ i ∈ ifaces ∧
    family i = JStr "IPv4" ∧ internal i = false ∧ address i = addr.
Proof.
  induction nis as [|[n ifaces] rest IH]; simpl.
  - split; [by intros ?%not_elem_of_nil|].
    by intros (? & ? & ?%not_elem_of_nil & _).
  - rewrite elem_of_app, IH, list_elem_of_fmap. split.
    + intros [(i & [= -> ->] & Hi)|(ifs & i & Hin & Hrest)].
      * apply list_elem_of_filter in Hi as [Hext Hi].
        apply external_ipv4_spec in Hext as [? ?].
        exists ifaces, i. repeat split; try done. by left.
      * exists ifs, i. destruct Hrest as (? & ? & ? & ?).
        repeat split; try done. by right.
    + intros (ifs & i & Hin & Hi & Hf & Hint & <-).
      apply elem_of_cons in Hin as [[= -> ->]|Hin].
      * left. exists i. split; [done|].
        apply list_elem_of_filter. split; [|done].
        by apply external_ipv4_spec.
      * right. by exists ifs, i.
Qed.

(** X20: for the same interfaces, every address the server lists under
    "Network access" has an [IP.k] line in the [[alt_names]] section that
    generate-cert.js writes, after [DNS.1 = localhost], [IP.1 = 127.0.0.1]
    and [IP.2 = ::1], which are there whatever the interfaces. *)
Theorem listed_addresses_are_in_alt_names
    (nis : list (string * list iface)) (name addr : string) :
  (name, addr) ∈ allIPs nis →
  (∃ more, alt_names nis
           = ["DNS.1 = localhost"; "IP.1 = 127.0.0.1"; "IP.2 = ::1"] ++ more) ∧
  ∃ k, (2 ≤ k)%nat ∧
       alt_names nis !! S k
       = Some ("IP." +:+ pretty (k + 1)%nat +:+ " = " +:+ addr).
Proof.
  intros Hin. split; [by eexists|].
  assert (addr ∈ pushed nis) as Hp.
  { rewrite pushed_allIPs. apply list_elem_of_fmap. by exists (name, addr). }
  apply list_elem_of_lookup in Hp as [j Hj].
  exists (2 + j)%nat. split; [lia|].
  unfold alt_names, ips, dnsNames.
  change (S (2 + j)) with (length (imap (λ (i : nat) dns,
    "DNS." +:+ pretty (i + 1)%nat +:+ " = " +:+ dns) ["localhost"]) + (2 + j))%nat.
  rewrite lookup_app_r by lia.
  replace (_ + (2 + j) - _)%nat with (2 + j)%nat by (simpl; lia).
  rewrite list_lookup_imap.
  change (["127.0.0.1"; "::1"] ++ pushed nis) with
    ("127.0.0.1" :: "::1" :: pushed nis).
  simpl. by rewrite Hj.
Qed.

Lemma listed_addresses_are_in_alt_names_witness :
  (∃ more,
      alt_names
        [("lo", [{| family := JStr "IPv4"; internal := true; address := "127.0.0.1" |}]);
         ("eth0", [{| family := JStr "IPv6"; internal := false; address := "fe80::1" |};
                   {| family := JStr "IPv4"; internal := false; address := "10.0.0.5" |}])]
      = ["DNS.1 = localhost"; "IP.1 = 127.0.0.1"; "IP.2 = ::1"] ++ more) ∧
  ∃ k, (2 ≤ k)%nat ∧
       alt_names
         [("lo", [{| family := JStr "IPv4"; internal := true; address := "127.0.0.1" |}]);
          ("eth0", [{| family := JStr "IPv6"; internal := false; address := "fe80::1" |};
                    {| family := JStr "IPv4"; internal := false; address := "10.0.0.5" |}])]
       !! S k
       = Some ("IP." +:+ pretty (k + 1)%nat +:+ " = " +:+ "10.0.0.5").
Proof.
  apply (listed_addresses_are_in_alt_names
           [("lo", [{| family := JStr "IPv4"; internal := true; address := "127.0.0.1" |}]);
            ("eth0", [{| family := JStr "IPv6"; internal := false; address := "fe80::1" |};
                      {| family := JStr "IPv4"; internal := false; address := "10.0.0.5" |}])]
           "eth0" "10.0.0.5").
  vm_compute. apply list_elem_of_here.
Defined.

(** * Registration and lookup *)

(** X21: once a socket is registered under a fresh, non-empty id, an
    envelope that a registered sender addresses to that id is written to
    it. *)
Theorem new_connection_is_reachable
    (twilio : bool) (st : connections) (id a : string) (la : list string)
    (data : json) :
  st !! id = None → id ≠ "" →
  st !! a = Some la →
  prop "id" data = Some (JStr id) →
  ∃ st1 tr1 st2,
    on_connection twilio id st = Returned st1 tr1 ∧
    on_message a (Parsed data) st1
    = Returned st2 [Log a "received"; Send id (set_prop "id" (JStr a) data)].
Proof.
  intros Hfresh Hne Ha Hid. unfold on_connection. rewrite Hfresh.
  eexists _, _, _. split; [reflexivity|].
  apply (on_message_forward a id [] data _ Hid Hne).
  apply lookup_insert_eq.
Qed.

Lemma new_connection_is_reachable_witness :
  ∃ st1 tr1 st2,
    on_connection false "C" two_idle = Returned st1 tr1 ∧
    on_message "A" (Parsed (offer_to "C")) st1
    = Returned st2 [Log "A" "received";
                    Send "C" (set_prop "id" (JStr "A") (offer_to "C"))].
Proof.
  apply (new_connection_is_reachable false two_idle "C" "A" [] (offer_to "C")).
  - vm_compute; reflexivity.
  - discriminate.
  - vm_compute; reflexivity.
  - reflexivity.
Defined.

(** X22: once the socket of [id] has closed, an envelope addressed to [id]
    is dropped: nothing is written to any socket and no array changes. *)
Theorem closed_connection_is_unreachable
    (st : connections) (id a : string) (data : json) :
  prop "id" data = Some (JStr id) →
  sends (trace_of (on_message a (Parsed data) (state_of (on_close id st)))) = [] ∧
  state_of (on_message a (Parsed data) (state_of (on_close id st)))
  = state_of (on_close id st).
Proof.
  intros Hid.
  destruct (on_message_cases a (Parsed data) (state_of (on_close id st)))
    as [[Hst Htr]|(data' & peerId & lp & [= <-] & Hid' & _ & Hp & _)]; [done|].
  exfalso. rewrite Hid in Hid'. injection Hid' as <-.
  destruct (proj1 (on_close_deregisters id st id)) as [Hne _]; [|done].
  by rewrite Hp.
Qed.

Lemma closed_connection_is_unreachable_witness :
  sends (trace_of (on_message "B" (Parsed (offer_to "A"))
                     (state_of (on_close "A" two_idle)))) = [] ∧
  state_of (on_message "B" (Parsed (offer_to "A")) (state_of (on_close "A" two_idle)))
  = state_of (on_close "A" two_idle).
Proof.
  apply (closed_connection_is_unreachable two_idle "A" "B" (offer_to "A")).
  reflexivity.
Defined.
